(** * A verified model of the binary search tree of [binary-search-tree.js]

    The JavaScript objects of the program live in a mutable store: every
    [Node] has an identity (its address), and the methods of
    [BinarySearchTree] read and write the fields of nodes through references
    that may be [null].  The model keeps exactly that: a heap of nodes indexed
    by addresses, the [root] field of the tree object, and each method as a
    computation in a small state-and-error monad.  Loops and recursive calls
    are bounded by a fuel argument; a computation that exhausts it reports
    [OutOfFuel], so that non-termination of the source shows up as "no fuel
    is ever enough".

    Values stored by the callers are integers (the source compares them with
    the built-in [<] and [>]); the only other value the code ever stores is
    the [null] of the temporary node that [remove] creates. *)

From stdpp Require Import gmap list sorting.
From Stdlib Require Import ZArith Lia.

Open Scope Z_scope.

(** ** Data model *)

Definition loc := positive.

(** A JavaScript reference to a node: [None] is [null] (or [undefined]). *)
Definition ref := option loc.

Inductive jsval :=
  | JNull
  | JNum (z : Z).

Global Instance jsval_eq_dec : EqDecision jsval.
Proof. solve_decision. Defined.

(** [class Node]: [constructor(val, left = null, right = null)]. *)
Record Node := mkNode { val : jsval; left : ref; right : ref }.

Global Instance Node_eq_dec : EqDecision Node.
Proof. solve_decision. Defined.

(** The store: the heap of nodes and the [root] field of the tree object
    ([this.root]). *)
Record store := mkStore { heap : gmap loc Node; root : ref }.

(** [new BinarySearchTree()]: nothing allocated, [root = null]. *)
Definition empty_tree : store := mkStore ∅ None.

(** The value a method returns when it returns [this]. *)
Inductive tree_ref := this.

(** ** The monad of methods *)

Inductive outcome (A : Type) :=
  | Ret (a : A)
  | TypeError
  | OutOfFuel.
Arguments Ret {A} a.
Arguments TypeError {A}.
Arguments OutOfFuel {A}.

Definition M (A : Type) := store → outcome A * store.

Definition ret {A} (a : A) : M A := λ s, (Ret a, s).

Definition bind {A B} (m : M A) (k : A → M B) : M B := λ s,
  match m s with
  | (Ret a, s') => k a s'
  | (TypeError, s') => (TypeError, s')
  | (OutOfFuel, s') => (OutOfFuel, s')
  end.

Definition out_of_fuel {A} : M A := λ s, (OutOfFuel, s).

Notation "'let*' x ':=' m 'in' k" := (bind m (λ x, k))
  (at level 10, x pattern, m at level 100, k at level 200).
Notation "m ';;;' k" := (bind m (λ _, k))
  (at level 100, k at level 200, right associativity).

(** Reading through a reference: reading a property of [null] throws a
    [TypeError].  (An address outside the heap cannot arise in JavaScript;
    the model treats it like [null].) *)
Definition deref (p : ref) : M Node := λ s,
  match p with
  | None => (TypeError, s)
  | Some a =>
      match heap s !! a with
      | Some n => (Ret n, s)
      | None => (TypeError, s)
      end
  end.

Definition get_val (p : ref) : M jsval := let* n := deref p in ret (val n).
Definition get_left (p : ref) : M ref := let* n := deref p in ret (left n).
Definition get_right (p : ref) : M ref := let* n := deref p in ret (right n).

(** [p?.val]: [undefined] (here [None]) when [p] is [null]. *)
Definition opt_val (p : ref) : M (option jsval) :=
  match p with
  | None => ret None
  | Some _ => let* v := get_val p in ret (Some v)
  end.

Definition update (p : ref) (f : Node → Node) : M unit := λ s,
  match p with
  | None => (TypeError, s)
  | Some a =>
      match heap s !! a with
      | Some n => (Ret (), mkStore (<[a := f n]> (heap s)) (root s))
      | None => (TypeError, s)
      end
  end.

Definition set_val (p : ref) (v : jsval) : M unit :=
  update p (λ n, mkNode v (left n) (right n)).
Definition set_left (p : ref) (q : ref) : M unit :=
  update p (λ n, mkNode (val n) q (right n)).
Definition set_right (p : ref) (q : ref) : M unit :=
  update p (λ n, mkNode (val n) (left n) q).

(** [new Node(v)]: a node at an address not used so far. *)
Definition new_Node (v : jsval) : M ref := λ s,
  let a := fresh (dom (heap s)) in
  (Ret (Some a), mkStore (<[a := mkNode v None None]> (heap s)) (root s)).

Definition get_root : M ref := λ s, (Ret (root s), s).
Definition set_root (p : ref) : M unit := λ s, (Ret (), mkStore (heap s) p).

(** Truthiness and comparisons of JavaScript, on the values that occur.
    [<] and [>] convert [null] to [0]; [===] does not convert. *)
Definition is_null (p : ref) : bool := if p is None then true else false.
Definition truthy (p : ref) : bool := if p is Some _ then true else false.
Definition ref_eqb (p q : ref) : bool := bool_decide (p = q).
Definition to_number (v : jsval) : Z := match v with JNull => 0 | JNum z => z end.
Definition js_lt (x : Z) (v : jsval) : bool := x <? to_number v.
Definition js_gt (x : Z) (v : jsval) : bool := to_number v <? x.
Definition strict_eq (x : Z) (v : option jsval) : bool :=
  bool_decide (v = Some (JNum x)).

(** ** insert (lines 41-65) *)

Fixpoint insert_loop (fuel : nat) (v : Z) (current : ref) : M tree_ref :=
  match fuel with
  | O => out_of_fuel
  | S fuel =>
      let* cv := get_val current in
      if js_lt v cv then
        let* l := get_left current in
        if is_null l then
          let* n := new_Node (JNum v) in
          set_left current n;;; ret this
        else insert_loop fuel v l
      else if js_gt v cv then
        let* r := get_right current in
        if is_null r then
          let* n := new_Node (JNum v) in
          set_right current n;;; ret this
        else insert_loop fuel v r
      else insert_loop fuel v current
  end.

Definition insert (fuel : nat) (v : Z) : M tree_ref :=
  let* r := get_root in
  if is_null r then
    let* n := new_Node (JNum v) in
    set_root n;;; ret this
  else insert_loop fuel v r.

(** ** insertRecursively (lines 74-93) *)

Fixpoint insertRecursively_from (fuel : nat) (v : Z) (current : ref) : M tree_ref :=
  match fuel with
  | O => out_of_fuel
  | S fuel =>
      let* r := get_root in
      if is_null r then
        let* n := new_Node (JNum v) in
        set_root n;;; ret this
      else
        let* cv := get_val current in
        if js_lt v cv then
          let* l := get_left current in
          if is_null l then
            let* n := new_Node (JNum v) in
            set_left current n;;; ret this
          else insertRecursively_from fuel v l
        else
          let* r := get_right current in
          if is_null r then
            let* n := new_Node (JNum v) in
            set_right current n;;; ret this
          else insertRecursively_from fuel v r
  end.

(** The call with the default argument [current = this.root]. *)
Definition insertRecursively (fuel : nat) (v : Z) : M tree_ref :=
  let* r := get_root in insertRecursively_from fuel v r.

(** ** find (lines 101-118) *)

Fixpoint find_loop (fuel : nat) (v : Z) (currentNode : ref) (found : bool)
  : M (ref * bool) :=
  if truthy currentNode && negb found then
    match fuel with
    | O => out_of_fuel
    | S fuel =>
        let* cv := get_val currentNode in
        if js_lt v cv then
          let* l := get_left currentNode in find_loop fuel v l found
        else if js_gt v cv then
          let* r := get_right currentNode in find_loop fuel v r found
        else find_loop fuel v currentNode true
    end
  else ret (currentNode, found).

Definition find (fuel : nat) (v : Z) : M ref :=
  let* currentNode := get_root in
  let* cv := opt_val currentNode in
  if strict_eq v cv then ret currentNode
  else
    let* (currentNode, found) := find_loop fuel v currentNode false in
    ret (if found : bool then currentNode else None).

(** ** findRecursively (lines 127-138) *)

Fixpoint findRecursively_from (fuel : nat) (v : Z) (current : ref) : M ref :=
  match fuel with
  | O => out_of_fuel
  | S fuel =>
      let* r := get_root in
      if is_null r then ret None
      else
        let* cv := get_val current in
        if js_lt v cv then
          let* l := get_left current in
          if is_null l then ret None else findRecursively_from fuel v l
        else if js_gt v cv then
          let* r := get_right current in
          if is_null r then ret None else findRecursively_from fuel v r
        else ret current
  end.

Definition findRecursively (fuel : nat) (v : Z) : M ref :=
  let* r := get_root in findRecursively_from fuel v r.

(** ** Depth-first traversals (lines 144-186)

    [data] is the local array of the method that the closure [traverse]
    pushes to; the model passes it through the calls. *)

Fixpoint traverse_pre (fuel : nat) (node : ref) (data : list jsval) : M (list jsval) :=
  match fuel with
  | O => out_of_fuel
  | S fuel =>
      if is_null node then ret data
      else
        let* v := get_val node in
        let data := data ++ [v] in
        let* l := get_left node in
        let* data := traverse_pre fuel l data in
        let* r := get_right node in
        traverse_pre fuel r data
  end.

Definition dfsPreOrder (fuel : nat) : M (list jsval) :=
  let* r := get_root in traverse_pre fuel r [].

Fixpoint traverse_in (fuel : nat) (node : ref) (data : list jsval) : M (list jsval) :=
  match fuel with
  | O => out_of_fuel
  | S fuel =>
      if is_null node then ret data
      else
        let* l := get_left node in
        let* data := traverse_in fuel l data in
        let* v := get_val node in
        let data := data ++ [v] in
        let* r := get_right node in
        traverse_in fuel r data
  end.

Definition dfsInOrder (fuel : nat) : M (list jsval) :=
  let* r := get_root in traverse_in fuel r [].

Fixpoint traverse_post (fuel : nat) (node : ref) (data : list jsval) : M (list jsval) :=
  match fuel with
  | O => out_of_fuel
  | S fuel =>
      if is_null node then ret data
      else
        let* l := get_left node in
        let* data := traverse_post fuel l data in
        let* r := get_right node in
        let* data := traverse_post fuel r data in
        let* v := get_val node in
        ret (data ++ [v])
  end.

Definition dfsPostOrder (fuel : nat) : M (list jsval) :=
  let* r := get_root in traverse_post fuel r [].

(** ** bfs (lines 192-204) *)

Fixpoint bfs_loop (fuel : nat) (queue : list ref) (data : list jsval) : M (list jsval) :=
  match queue with
  | [] => ret data
  | node :: queue =>
      match fuel with
      | O => out_of_fuel
      | S fuel =>
          let* v := get_val node in
          let data := data ++ [v] in
          let* l := get_left node in
          let queue := if truthy l then queue ++ [l] else queue in
          let* r := get_right node in
          let queue := if truthy r then queue ++ [r] else queue in
          bfs_loop fuel queue data
      end
  end.

Definition bfs (fuel : nat) : M (list jsval) :=
  let* r := get_root in bfs_loop fuel [r] [].

(** ** remove (lines 211-282) *)

(** The search loop [while (nodeToRemove?.val !== val)]. *)
Fixpoint remove_search (fuel : nat) (v : Z) (nodeToRemove parent : ref)
  : M (ref * ref) :=
  let* nv := opt_val nodeToRemove in
  if negb (strict_eq v nv) then
    match fuel with
    | O => out_of_fuel
    | S fuel =>
        let parent := nodeToRemove in
        let* cv := get_val nodeToRemove in
        if js_lt v cv then
          let* l := get_left nodeToRemove in remove_search fuel v l parent
        else
          let* r := get_right nodeToRemove in remove_search fuel v r parent
    end
  else ret (nodeToRemove, parent).

(** The loop [while (right.left !== null)] of the two-children case. *)
Fixpoint leftmost_loop (fuel : nat) (rightParent right : ref) : M (ref * ref) :=
  let* l := get_left right in
  if negb (is_null l) then
    match fuel with
    | O => out_of_fuel
    | S fuel => leftmost_loop fuel right l
    end
  else ret (rightParent, right).

(** The case analysis on the children of the node (lines 234-275). *)
Definition remove_node (fuel : nat) (nodeToRemove parent : ref) : M unit :=
  let* nl := get_left nodeToRemove in
  let* nr := get_right nodeToRemove in
  if is_null nl && is_null nr then
    let* pl := get_left parent in
    if ref_eqb pl nodeToRemove then set_left parent None
    else set_right parent None
  else if negb (is_null nl) && negb (is_null nr) then
    let rightParent := nodeToRemove in
    let right := nr in
    let* rl := get_left right in
    if is_null rl then
      let* nl := get_left nodeToRemove in
      set_left right nl;;;
      let* pl := get_left parent in
      if ref_eqb pl nodeToRemove then set_left parent right
      else set_right parent right
    else
      let* (rightParent, right) := leftmost_loop fuel rightParent right in
      let* pl := get_left parent in
      (if ref_eqb pl nodeToRemove then
         let* rv := get_val right in set_val pl rv
       else
         let* pr := get_right parent in
         let* rv := get_val right in set_val pr rv);;;
      let* rr := get_right right in
      if negb (is_null rr) then set_left rightParent rr
      else set_left rightParent None
  else
    let* pl := get_left parent in
    if ref_eqb pl nodeToRemove then
      let* nl := get_left nodeToRemove in
      let* c := (if truthy nl then ret nl else get_right nodeToRemove) in
      set_left parent c
    else
      let* nl := get_left nodeToRemove in
      let* c := (if truthy nl then ret nl else get_right nodeToRemove) in
      set_right parent c.

Definition remove (fuel : nat) (v : Z) : M ref :=
  let* nodeToRemove := get_root in
  let* (nodeToRemove, parent) := remove_search fuel v nodeToRemove None in
  if negb (truthy nodeToRemove) then ret None
  else
    let* r := get_root in
    let* (nodeToRemove, parent) :=
      (if ref_eqb nodeToRemove r then
         let* tempRoot := new_Node JNull in
         let* r := get_root in
         set_left tempRoot r;;;
         let* r := get_root in
         ret (r, tempRoot)
       else ret (nodeToRemove, parent)) in
    remove_node fuel nodeToRemove parent;;;
    let* r := get_root in
    (if ref_eqb r nodeToRemove then
       let* pl := get_left parent in set_root pl
     else ret ());;;
    ret nodeToRemove.

(** ** isBalanced (lines 289-303) *)

Fixpoint minDepth (fuel : nat) (node : ref) : M Z :=
  match fuel with
  | O => out_of_fuel
  | S fuel =>
      if is_null node then ret 0
      else
        let* l := get_left node in
        let* a := minDepth fuel l in
        let* r := get_right node in
        let* b := minDepth fuel r in
        ret (1 + Z.min a b)
  end.

Fixpoint maxDepth (fuel : nat) (node : ref) : M Z :=
  match fuel with
  | O => out_of_fuel
  | S fuel =>
      if is_null node then ret 0
      else
        let* l := get_left node in
        let* a := maxDepth fuel l in
        let* r := get_right node in
        let* b := maxDepth fuel r in
        ret (1 + Z.max a b)
  end.

Definition isBalanced_from (fuel : nat) (current : ref) : M bool :=
  if is_null current then ret true
  else
    let* mx := maxDepth fuel current in
    let* mn := minDepth fuel current in
    ret (mx - mn <=? 1).

Definition isBalanced (fuel : nat) : M bool :=
  let* r := get_root in isBalanced_from fuel r.

(** ** findSecondHighest (lines 310-322) *)

Fixpoint findSecondHighest_loop (self : ref → M (option jsval))
    (fuel : nat) (current : ref) : M (option jsval) :=
  if truthy current then
    match fuel with
    | O => out_of_fuel
    | S fuel =>
        let* cl := get_left current in
        let* cr := get_right current in
        if truthy cl && negb (truthy cr) then self cl
        else
          let* leaf_right :=
            (if truthy cr then
               let* crl := get_left cr in
               if negb (truthy crl) then
                 let* crr := get_right cr in ret (negb (truthy crr))
               else ret false
             else ret false) in
          if leaf_right : bool then
            let* cv := get_val current in ret (Some cv)
          else findSecondHighest_loop self fuel cr
    end
  else ret None.

Fixpoint findSecondHighest_from (fuel : nat) (current : ref) : M (option jsval) :=
  match fuel with
  | O => out_of_fuel
  | S fuel =>
      let* r := get_root in
      let* single :=
        (if negb (truthy r) then ret true
         else
           let* rl := get_left r in
           if negb (truthy rl) then
             let* rr := get_right r in ret (negb (truthy rr))
           else ret false) in
      if single : bool then ret None
      else findSecondHighest_loop (findSecondHighest_from fuel) fuel current
  end.

Definition findSecondHighest (fuel : nat) : M (option jsval) :=
  let* r := get_root in findSecondHighest_from fuel r.

(** ** dfsInOrderIterative (lines 328-346)

    The explicit stack is a list whose head is the top ([push] conses,
    [pop] takes the head, and yields [undefined] on the empty stack). *)

Fixpoint push_lefts (fuel : nat) (stack : list ref) (cur : ref) : M (list ref * ref) :=
  if truthy cur then
    match fuel with
    | O => out_of_fuel
    | S fuel =>
        let stack := cur :: stack in
        let* l := get_left cur in
        push_lefts fuel stack l
    end
  else ret (stack, cur).

Definition pop (stack : list ref) : ref * list ref :=
  match stack with
  | [] => (None, [])
  | top :: stack => (top, stack)
  end.

Fixpoint inorder_loop (fuel : nat) (stack : list ref) (cur : ref)
    (dfs : list jsval) : M (list jsval) :=
  if bool_decide (0 < length stack)%nat || truthy cur then
    match fuel with
    | O => out_of_fuel
    | S fuel =>
        let* (stack, cur) := push_lefts fuel stack cur in
        let '(cur, stack) := pop stack in
        if truthy cur then
          let* v := get_val cur in
          let dfs := dfs ++ [v] in
          let* r := get_right cur in
          inorder_loop fuel stack r dfs
        else inorder_loop fuel stack cur dfs
    end
  else ret dfs.

Definition dfsInOrderIterative (fuel : nat) : M (list jsval) :=
  let* cur := get_root in inorder_loop fuel [] cur [].

(** ** Running a sequence of calls *)

(** [insert] (resp. [insertRecursively]) called for each value of a list in
    turn; [None] when a call does not return. *)
Fixpoint insert_all (fuel : nat) (vs : list Z) (s : store) : option store :=
  match vs with
  | [] => Some s
  | v :: vs =>
      match insert fuel v s with
      | (Ret _, s') => insert_all fuel vs s'
      | _ => None
      end
  end.

Fixpoint insertRecursively_all (fuel : nat) (vs : list Z) (s : store)
  : option store :=
  match vs with
  | [] => Some s
  | v :: vs =>
      match insertRecursively fuel v s with
      | (Ret _, s') => insertRecursively_all fuel vs s'
      | _ => None
      end
  end.

(** ** Abstraction: the tree that a heap represents

    A [tree] records, for every node, its address and its value.  The heap
    represents [t] at a reference when following the links from that
    reference reads off exactly [t]. *)

Inductive tree :=
  | Leaf
  | Br (a : loc) (l : tree) (v : Z) (r : tree).

Definition ptr (t : tree) : ref :=
  match t with
  | Leaf => None
  | Br a _ _ _ => Some a
  end.

Fixpoint shape (h : gmap loc Node) (t : tree) : Prop :=
  match t with
  | Leaf => True
  | Br a l v r =>
      h !! a = Some (mkNode (JNum v) (ptr l) (ptr r)) ∧ shape h l ∧ shape h r
  end.

(** The tree object represents [t]. *)
Definition repr (s : store) (t : tree) : Prop :=
  root s = ptr t ∧ shape (heap s) t.

(** Addresses and values, left to right. *)
Fixpoint addrs (t : tree) : list loc :=
  match t with
  | Leaf => []
  | Br a l _ r => addrs l ++ a :: addrs r
  end.

Fixpoint inorder (t : tree) : list Z :=
  match t with
  | Leaf => []
  | Br _ l v r => inorder l ++ v :: inorder r
  end.

(** No node is shared: the links from the root form a tree. *)
Definition unshared (t : tree) : Prop := NoDup (addrs t).

(** Longest and shortest path to an empty slot. *)
Fixpoint height (t : tree) : nat :=
  match t with
  | Leaf => 0
  | Br _ l _ r => S (Nat.max (height l) (height r))
  end.

Fixpoint min_height (t : tree) : nat :=
  match t with
  | Leaf => 0
  | Br _ l _ r => S (Nat.min (min_height l) (min_height r))
  end.

Fixpoint tsize (t : tree) : nat :=
  match t with
  | Leaf => 0
  | Br _ l _ r => S (tsize l + tsize r)
  end.

(** [t'] is [t] or one of the subtrees below it. *)
Fixpoint subtree (t' t : tree) : Prop :=
  t' = t ∨
  match t with
  | Leaf => False
  | Br _ l _ r => subtree t' l ∨ subtree t' r
  end.

(** The ordering invariant, strict as the specification states it, and in
    the form where equal values are allowed on the right. *)
Fixpoint bst (t : tree) : Prop :=
  match t with
  | Leaf => True
  | Br _ l v r =>
      Forall (λ x, x < v) (inorder l) ∧ Forall (λ x, v < x) (inorder r) ∧
      bst l ∧ bst r
  end.

Fixpoint bst_le (t : tree) : Prop :=
  match t with
  | Leaf => True
  | Br _ l v r =>
      Forall (λ x, x < v) (inorder l) ∧ Forall (λ x, v ≤ x) (inorder r) ∧
      bst_le l ∧ bst_le r
  end.

(** *** What the mutators do to the represented tree *)

(** Insertion of [v] in a new node at address [a]; a value that is not
    smaller goes right, as in [insertRecursively]. *)
Fixpoint tinsert (a : loc) (v : Z) (t : tree) : tree :=
  match t with
  | Leaf => Br a Leaf v Leaf
  | Br b l x r =>
      if v <? x then Br b (tinsert a v l) x r else Br b l x (tinsert a v r)
  end.

(** The comparison path of [remove] reaches a node holding [v]. *)
Fixpoint on_path (v : Z) (t : tree) : bool :=
  match t with
  | Leaf => false
  | Br _ l x r =>
      if bool_decide (x = v) then true
      else if v <? x then on_path v l else on_path v r
  end.

(** The leftmost node of a tree, and the tree without it: the right
    subtree of the leftmost node takes its place. *)
Fixpoint leftmost (t : tree) : tree :=
  match t with
  | Leaf => Leaf
  | Br _ l _ _ => if l is Leaf then t else leftmost l
  end.

Fixpoint leftmost_parent (p : ref) (t : tree) : ref :=
  match t with
  | Leaf => p
  | Br b l _ _ => if l is Leaf then p else leftmost_parent (Some b) l
  end.

Fixpoint del_leftmost (t : tree) : tree :=
  match t with
  | Leaf => Leaf
  | Br b l x r => if l is Leaf then r else Br b (del_leftmost l) x r
  end.

Definition value_of (t : tree) : Z := if t is Br _ _ x _ then x else 0.
Definition right_of (t : tree) : tree := if t is Br _ _ _ r then r else Leaf.
Definition left_of (t : tree) : tree := if t is Br _ l _ _ then l else Leaf.

(** Removal of the node at the root of [t] (lines 234-275). *)
Definition del_root (t : tree) : tree :=
  match t with
  | Leaf => Leaf
  | Br a Leaf _ Leaf => Leaf
  | Br a Leaf _ r => r
  | Br a l _ Leaf => l
  | Br a l _ (Br b Leaf y rr) => Br b l y rr
  | Br a l _ r => Br a l (value_of (leftmost r)) (del_leftmost r)
  end.

Fixpoint tremove (v : Z) (t : tree) : tree :=
  match t with
  | Leaf => Leaf
  | Br a l x r =>
      if bool_decide (x = v) then del_root t
      else if v <? x then Br a (tremove v l) x r else Br a l x (tremove v r)
  end.

(** The node that [remove] returns: the first node on the comparison path
    that holds [v]. *)
Fixpoint found_node (v : Z) (t : tree) : ref :=
  match t with
  | Leaf => None
  | Br a l x r =>
      if bool_decide (x = v) then Some a
      else if v <? x then found_node v l else found_node v r
  end.

Fixpoint found_parent (v : Z) (parent : ref) (t : tree) : ref :=
  match t with
  | Leaf => parent
  | Br a l x r =>
      if bool_decide (x = v) then parent
      else if v <? x then found_parent v (Some a) l else found_parent v (Some a) r
  end.

(** The subtree at the node that [remove] finds. *)
Fixpoint found_tree (v : Z) (t : tree) : tree :=
  match t with
  | Leaf => Leaf
  | Br _ l x r =>
      if bool_decide (x = v) then t
      else if v <? x then found_tree v l else found_tree v r
  end.

(** The branch of lines 253-266: two children, and the right child has a
    left child. *)
Definition copies_value (t : tree) : bool :=
  match t with
  | Br _ (Br _ _ _ _) _ (Br _ (Br _ _ _ _) _ _) => true
  | _ => false
  end.

(** The parent [pn] of the node [old] with that link replaced by [new], the
    way the code chooses the link: the left one if it holds [old], else the
    right one. *)
Definition relink (pn : Node) (old new : ref) : Node :=
  if bool_decide (left pn = old) then mkNode (val pn) new (right pn)
  else mkNode (val pn) (left pn) new.

(** ** Trees reachable by calls of the mutators *)

Definition finished {A} (o : outcome A) : Prop :=
  match o with OutOfFuel => False | _ => True end.

(** From the empty tree, by any sequence of calls that come back: a call
    of [insert] or [insertRecursively] that returns, a call of [remove] that
    returns or throws. *)
Inductive reachable : store → Prop :=
  | reach_empty : reachable empty_tree
  | reach_insert s fuel v s' :
      reachable s → insert fuel v s = (Ret this, s') → reachable s'
  | reach_insertRecursively s fuel v s' :
      reachable s → insertRecursively fuel v s = (Ret this, s') → reachable s'
  | reach_remove s fuel v o s' :
      reachable s → remove fuel v s = (o, s') → finished o → reachable s'.

(** ** Auxiliary notions of the proofs *)

(** A computation that leaves the store as it found it. *)
Definition readonly {A} (m : M A) : Prop := ∀ s, (m s).2 = s.

(** A computation [m'] extends [m] when every run of [m] that finishes
    (returns or throws) is a run of [m']. *)
Definition extends {A} (m m' : M A) : Prop :=
  ∀ s o s', m s = (o, s') → finished o → m' s = (o, s').

(** The nodes that the inner loop pushes, deepest first. *)
Fixpoint lefts (t : tree) : list tree :=
  match t with
  | Leaf => []
  | Br _ l _ _ => lefts l ++ [t]
  end.

(** What remains to be output for the nodes on the stack. *)
Definition pending (ts : list tree) : list Z :=
  flat_map (λ t, value_of t :: inorder (right_of t)) ts.

Definition work (ts : list tree) : nat :=
  sum_list (map (λ t, S (tsize (right_of t))) ts).

(** ** Notions for the further properties *)

(** Pre-order and post-order sequences of values. *)
Fixpoint preorder (t : tree) : list Z :=
  match t with
  | Leaf => []
  | Br _ l v r => v :: preorder l ++ preorder r
  end.

Fixpoint postorder (t : tree) : list Z :=
  match t with
  | Leaf => []
  | Br _ l v r => postorder l ++ postorder r ++ [v]
  end.

(** The values at depth [d] of a tree, left to right, and the values of a
    tree level by level. *)
Fixpoint level (d : nat) (t : tree) : list Z :=
  match t with
  | Leaf => []
  | Br _ l v r =>
      match d with
      | O => [v]
      | S d => level d l ++ level d r
      end
  end.

Definition level_order (t : tree) : list Z :=
  concat (map (λ d, level d t) (seq 0 (height t))).

(** The same for a sequence of trees: the values at their roots, then the
    values of the sequence of all their subtrees, [n] levels deep. *)
Definition roots (ts : list tree) : list Z :=
  flat_map (λ t, if t is Br _ _ v _ then [v] else []) ts.

Definition children (ts : list tree) : list tree :=
  flat_map (λ t, if t is Br _ l _ r then [l; r] else []) ts.

Fixpoint forest_order (n : nat) (ts : list tree) : list Z :=
  match n with
  | O => []
  | S n => roots ts ++ forest_order n (children ts)
  end.

(** The trees of a sequence that are not empty. *)
Definition nonleaves (ts : list tree) : list tree :=
  flat_map (λ t, if t is Leaf then [] else [t]) ts.

(** Trees of values without addresses: what two stores that hold the same
    tree at different addresses have in common. *)
Inductive bintree : Type :=
  | BLeaf
  | BNode (l : bintree) (v : Z) (r : bintree).

Fixpoint skeleton (t : tree) : bintree :=
  match t with
  | Leaf => BLeaf
  | Br _ l v r => BNode (skeleton l) v (skeleton r)
  end.

(** Insertion along the comparison path, as [tinsert]. *)
Fixpoint binsert (v : Z) (t : bintree) : bintree :=
  match t with
  | BLeaf => BNode BLeaf v BLeaf
  | BNode l x r => if v <? x then BNode (binsert v l) x r else BNode l x (binsert v r)
  end.

Definition binsert_all (vs : list Z) (t : bintree) : bintree :=
  foldl (λ t v, binsert v t) t vs.

(** The tree that is a list: every left link is empty. *)
Fixpoint chain (vs : list Z) : bintree :=
  match vs with
  | [] => BLeaf
  | v :: vs => BNode BLeaf v (chain vs)
  end.

(** The walk of [findSecondHighest] (lines 313-321) on the represented
    tree: left when there is a left child and no right child; stop at a node
    whose right child has no children; else right. *)
Fixpoint second_walk (t : tree) : option Z :=
  match t with
  | Leaf => None
  | Br _ l x r =>
      match r with
      | Leaf => if l is Leaf then None else second_walk l
      | Br _ Leaf _ Leaf => Some x
      | _ => second_walk r
      end
  end.

(** The node of the largest value (the last node on the path of right
    links) has no children. *)
Fixpoint rightmost_is_leaf (t : tree) : bool :=
  match t with
  | Leaf => false
  | Br _ l _ r =>
      match r with
      | Leaf => if l is Leaf then true else false
      | _ => rightmost_is_leaf r
      end
  end.

(** The last but one element of a sequence. *)
Definition penultimate (xs : list Z) : option Z :=
  match rev xs with
  | _ :: y :: _ => Some y
  | _ => None
  end.

(** Trees obtained from the empty tree by calls of [insert] and [remove]
    only. *)
Inductive reachable_iterative : store → Prop :=
  | reach_it_empty : reachable_iterative empty_tree
  | reach_it_insert s fuel v s' :
      reachable_iterative s → insert fuel v s = (Ret this, s') →
      reachable_iterative s'
  | reach_it_remove s fuel v o s' :
      reachable_iterative s → remove fuel v s = (o, s') → finished o →
      reachable_iterative s'.

Arguments bind : simpl never.
Arguments ret : simpl never.
Arguments out_of_fuel : simpl never.
Arguments deref : simpl never.
Arguments get_val : simpl never.
Arguments get_left : simpl never.
Arguments get_right : simpl never.
Arguments opt_val : simpl never.
Arguments update : simpl never.
Arguments set_val : simpl never.
Arguments set_left : simpl never.
Arguments set_right : simpl never.
Arguments new_Node : simpl never.
Arguments get_root : simpl never.
Arguments set_root : simpl never.


(** * Proofs *)

(** ** Running computations *)

Lemma bind_Ret {A B} (m : M A) (k : A → M B) s a s' :
  m s = (Ret a, s') → bind m k s = k a s'.
Proof. intros H. unfold bind. by rewrite H. Qed.

Lemma bind_TypeError {A B} (m : M A) (k : A → M B) s s' :
  m s = (TypeError, s') → bind m k s = (TypeError, s').
Proof. intros H. unfold bind. by rewrite H. Qed.

Lemma bind_OutOfFuel {A B} (m : M A) (k : A → M B) s s' :
  m s = (OutOfFuel, s') → bind m k s = (OutOfFuel, s').
Proof. intros H. unfold bind. by rewrite H. Qed.

Lemma bind_assoc {A B C} (m : M A) (k : A → M B) (k' : B → M C) s :
  bind (bind m k) k' s = bind m (λ a, bind (k a) k') s.
Proof. unfold bind. by destruct (m s) as [[a| |] s1]. Qed.

Section primitives.
Context (h : gmap loc Node) (rt : ref) (a : loc) (n : Node).
Hypothesis Hn : h !! a = Some n.

Lemma deref_eq : deref (Some a) (mkStore h rt) = (Ret n, mkStore h rt).
Proof. unfold deref. simpl. by rewrite Hn. Qed.

Lemma get_val_eq : get_val (Some a) (mkStore h rt) = (Ret (val n), mkStore h rt).
Proof. unfold get_val. by rewrite (bind_Ret _ _ _ _ _ deref_eq). Qed.

Lemma get_left_eq : get_left (Some a) (mkStore h rt) = (Ret (left n), mkStore h rt).
Proof. unfold get_left. by rewrite (bind_Ret _ _ _ _ _ deref_eq). Qed.

Lemma get_right_eq : get_right (Some a) (mkStore h rt) = (Ret (right n), mkStore h rt).
Proof. unfold get_right. by rewrite (bind_Ret _ _ _ _ _ deref_eq). Qed.

Lemma opt_val_eq :
  opt_val (Some a) (mkStore h rt) = (Ret (Some (val n)), mkStore h rt).
Proof. unfold opt_val. by rewrite (bind_Ret _ _ _ _ _ get_val_eq). Qed.

Lemma update_eq f :
  update (Some a) f (mkStore h rt) = (Ret (), mkStore (<[a := f n]> h) rt).
Proof. unfold update. simpl. by rewrite Hn. Qed.

Lemma set_val_eq v :
  set_val (Some a) v (mkStore h rt)
  = (Ret (), mkStore (<[a := mkNode v (left n) (right n)]> h) rt).
Proof. apply update_eq. Qed.

Lemma set_left_eq q :
  set_left (Some a) q (mkStore h rt)
  = (Ret (), mkStore (<[a := mkNode (val n) q (right n)]> h) rt).
Proof. apply update_eq. Qed.

Lemma set_right_eq q :
  set_right (Some a) q (mkStore h rt)
  = (Ret (), mkStore (<[a := mkNode (val n) (left n) q]> h) rt).
Proof. apply update_eq. Qed.
End primitives.

Lemma get_root_eq h rt : get_root (mkStore h rt) = (Ret rt, mkStore h rt).
Proof. reflexivity. Qed.

Lemma set_root_eq h rt p : set_root p (mkStore h rt) = (Ret (), mkStore h p).
Proof. reflexivity. Qed.

Lemma new_Node_eq h rt v :
  new_Node v (mkStore h rt)
  = (Ret (Some (fresh (dom h))),
     mkStore (<[fresh (dom h) := mkNode v None None]> h) rt).
Proof. reflexivity. Qed.

Lemma fresh_heap (h : gmap loc Node) : h !! fresh (dom h) = None.
Proof. apply not_elem_of_dom, is_fresh. Qed.

(** One step of a computation whose first action is a primitive. *)
Ltac prim :=
  first
    [ reflexivity
    | first
        [ eapply get_val_eq | eapply get_left_eq | eapply get_right_eq
        | eapply opt_val_eq | eapply set_val_eq | eapply set_left_eq
        | eapply set_right_eq ];
      first [ eassumption | apply lookup_insert_eq
            | (rewrite lookup_insert_ne by congruence; eassumption) ] ].

Ltac step := erewrite bind_Ret by prim; simpl.
Ltac steps := repeat step.

(** ** Facts about trees *)

Lemma shape_agree h h' t :
  shape h t → (∀ x, x ∈ addrs t → h' !! x = h !! x) → shape h' t.
Proof.
  induction t as [|a l IHl v r IHr]; simpl; [done|].
  intros (Ha & Hl & Hr) Hag. split_and!.
  - rewrite Hag; [done|]. set_solver.
  - apply IHl; [done|]. intros; apply Hag. set_solver.
  - apply IHr; [done|]. intros; apply Hag. set_solver.
Qed.

Lemma shape_dom h t x : shape h t → x ∈ addrs t → is_Some (h !! x).
Proof.
  induction t as [|a l IHl v r IHr]; simpl; [set_solver|].
  intros (Ha & Hl & Hr) Hx.
  apply elem_of_app in Hx as [Hx|Hx]; [by apply IHl|].
  apply elem_of_cons in Hx as [->|Hx]; [by eexists|by apply IHr].
Qed.

Lemma shape_fresh h t : shape h t → fresh (dom h) ∉ addrs t.
Proof.
  intros Hs Hin. apply (shape_dom _ _ _ Hs) in Hin.
  rewrite fresh_heap in Hin. by destruct Hin.
Qed.

Lemma addrs_root a l v r : a ∈ addrs (Br a l v r).
Proof. simpl. set_solver. Qed.

Lemma addrs_left a l v r x : x ∈ addrs l → x ∈ addrs (Br a l v r).
Proof. simpl. set_solver. Qed.

Lemma addrs_right a l v r x : x ∈ addrs r → x ∈ addrs (Br a l v r).
Proof. simpl. set_solver. Qed.

Ltac in_addrs := solve [eauto using addrs_root, addrs_left, addrs_right].

Lemma height_le_tsize t : (height t ≤ tsize t)%nat.
Proof. induction t; simpl; lia. Qed.

Lemma inorder_length t : length (inorder t) = tsize t.
Proof. induction t; simpl; [done|]. rewrite length_app. simpl. lia. Qed.

Lemma addrs_length t : length (addrs t) = tsize t.
Proof. induction t; simpl; [done|]. rewrite length_app. simpl. lia. Qed.

(** ** The recursive traversals *)

Lemma traverse_in_spec h rt t :
  shape h t → ∀ fuel data, (height t < fuel)%nat →
  traverse_in fuel (ptr t) data (mkStore h rt)
  = (Ret (data ++ map JNum (inorder t)), mkStore h rt).
Proof.
  induction t as [|a l IHl v r IHr]; intros Hs fuel data Hf.
  - destruct fuel; [lia|]. simpl. by rewrite app_nil_r.
  - destruct Hs as (Ha & Hl & Hr). destruct fuel; [simpl in Hf; lia|].
    simpl in Hf. simpl. step.
    erewrite bind_Ret by (apply IHl; [done|lia]).
    steps. rewrite IHr by (done || lia).
    by rewrite map_app, <- !app_assoc.
Qed.

Lemma dfsInOrder_spec s t fuel :
  repr s t → (height t < fuel)%nat →
  dfsInOrder fuel s = (Ret (map JNum (inorder t)), s).
Proof.
  destruct s as [h rt]. intros [Hr Hs] Hf. simpl in *. subst rt.
  unfold dfsInOrder. step. by rewrite traverse_in_spec.
Qed.

(** ** The traversal with an explicit stack *)


Lemma pending_lefts t ts : pending (lefts t ++ ts) = inorder t ++ pending ts.
Proof.
  revert ts. induction t as [|a l IHl v r IHr]; intros ts; [done|].
  cbn [lefts inorder]. rewrite <- !app_assoc, IHl. done.
Qed.

Lemma work_lefts t ts : work (lefts t ++ ts) = (tsize t + work ts)%nat.
Proof.
  revert ts. induction t as [|a l IHl v r IHr]; intros ts; [done|].
  cbn [lefts tsize]. rewrite <- !app_assoc, IHl. unfold work. simpl. lia.
Qed.

Lemma lefts_shape h t : shape h t → Forall (shape h) (lefts t).
Proof.
  induction t as [|a l IHl v r IHr]; simpl; [constructor|].
  intros (Ha & Hl & Hr). apply Forall_app. split; [by apply IHl|].
  by repeat constructor.
Qed.

Lemma lefts_nonleaf t : Forall (λ t, t ≠ Leaf) (lefts t).
Proof.
  induction t as [|a l IHl v r IHr]; simpl; [constructor|].
  apply Forall_app. split; [done|]. by repeat constructor.
Qed.

Lemma push_lefts_spec h rt t :
  shape h t → ∀ fuel stack, (height t ≤ fuel)%nat →
  push_lefts fuel stack (ptr t) (mkStore h rt)
  = (Ret (map ptr (lefts t) ++ stack, None), mkStore h rt).
Proof.
  induction t as [|a l IHl v r IHr]; intros Hs fuel stack Hf.
  - by destruct fuel.
  - destruct Hs as (Ha & Hl & Hr). simpl in Hf. destruct fuel; [lia|].
    simpl. step. rewrite IHl by (done || lia).
    by rewrite map_app, <- app_assoc.
Qed.

Lemma inorder_loop_spec h rt :
  ∀ fuel cur ts dfs,
    shape h cur → Forall (shape h) ts → Forall (λ t, t ≠ Leaf) ts →
    (work (lefts cur ++ ts) < fuel)%nat →
    inorder_loop fuel (map ptr ts) (ptr cur) dfs (mkStore h rt)
    = (Ret (dfs ++ map JNum (pending (lefts cur ++ ts))), mkStore h rt).
Proof.
  induction fuel as [|fuel IH]; intros cur ts dfs Hc Hts Hnl Hf; [lia|].
  assert (Hall : Forall (shape h) (lefts cur ++ ts))
    by (apply Forall_app; auto using lefts_shape).
  assert (Hall' : Forall (λ t, t ≠ Leaf) (lefts cur ++ ts))
    by (apply Forall_app; auto using lefts_nonleaf).
  destruct (lefts cur ++ ts) as [|top rest] eqn:E.
  - apply app_eq_nil in E as [E1 ->].
    destruct cur as [|a l v r]; [|by apply app_eq_nil in E1 as [_ ?]].
    simpl. by rewrite app_nil_r.
  - assert (Hcond : bool_decide (0 < length (map ptr ts))%nat || truthy (ptr cur) = true).
    { destruct cur; simpl; [|by rewrite orb_true_r].
      simpl in E. subst ts. done. }
    simpl. rewrite Hcond.
    assert (Hh : (height cur ≤ fuel)%nat).
    { pose proof (height_le_tsize cur). rewrite <- E, work_lefts in Hf. lia. }
    erewrite bind_Ret by (by apply push_lefts_spec).
    rewrite <- map_app, E.
    apply Forall_cons in Hall as [Htop Hrest].
    apply Forall_cons in Hall' as [Hntop Hnrest].
    destruct top as [|a l v r]; [done|]. destruct Htop as (Ha & Hl & Hr).
    simpl. steps.
    rewrite (IH r rest) by (try done; rewrite work_lefts; unfold work in *;
                            simpl in *; lia).
    rewrite pending_lefts. simpl. by rewrite <- app_assoc.
Qed.

Lemma dfsInOrderIterative_spec s t fuel :
  repr s t → (tsize t < fuel)%nat →
  dfsInOrderIterative fuel s = (Ret (map JNum (inorder t)), s).
Proof.
  destruct s as [h rt]. intros [Hr Hs] Hf. simpl in *. subst rt.
  unfold dfsInOrderIterative. step.
  pose proof (inorder_loop_spec h (ptr t) fuel t [] []) as H.
  rewrite pending_lefts, work_lefts in H. simpl in H.
  rewrite app_nil_r, Nat.add_0_r in H. by apply H.
Qed.

(** ** Depths and the balance check *)

Lemma maxDepth_spec h rt t :
  shape h t → ∀ fuel, (height t < fuel)%nat →
  maxDepth fuel (ptr t) (mkStore h rt) = (Ret (Z.of_nat (height t)), mkStore h rt).
Proof.
  induction t as [|a l IHl v r IHr]; intros Hs fuel Hf.
  - destruct fuel; [lia|]. done.
  - destruct Hs as (Ha & Hl & Hr). simpl in Hf. destruct fuel; [lia|].
    simpl. step.
    erewrite bind_Ret by (apply IHl; [done|lia]). step.
    erewrite bind_Ret by (apply IHr; [done|lia]).
    unfold ret. do 2 f_equal. lia.
Qed.

Lemma minDepth_spec h rt t :
  shape h t → ∀ fuel, (height t < fuel)%nat →
  minDepth fuel (ptr t) (mkStore h rt) = (Ret (Z.of_nat (min_height t)), mkStore h rt).
Proof.
  induction t as [|a l IHl v r IHr]; intros Hs fuel Hf.
  - destruct fuel; [lia|]. done.
  - destruct Hs as (Ha & Hl & Hr). simpl in Hf. destruct fuel; [lia|].
    simpl. step.
    erewrite bind_Ret by (apply IHl; [done|lia]). step.
    erewrite bind_Ret by (apply IHr; [done|lia]).
    unfold ret. do 2 f_equal. lia.
Qed.

Lemma isBalanced_from_spec h rt t fuel :
  shape h t → (height t < fuel)%nat →
  isBalanced_from fuel (ptr t) (mkStore h rt)
  = (Ret (Z.of_nat (height t) - Z.of_nat (min_height t) <=? 1), mkStore h rt).
Proof.
  intros Hs Hf. unfold isBalanced_from. destruct t as [|a l v r]; [done|].
  change (is_null (ptr (Br a l v r))) with false. cbv iota.
  erewrite bind_Ret by (by apply maxDepth_spec).
  erewrite bind_Ret by (by apply minDepth_spec). done.
Qed.

Lemma subtree_refl t : subtree t t.
Proof. destruct t; simpl; auto. Qed.

Lemma subtree_shape h t' t : subtree t' t → shape h t → shape h t'.
Proof.
  induction t as [|a l IHl v r IHr]; simpl.
  - by intros [->|[]].
  - intros [->|[H|H]] (Ha & Hl & Hr); simpl; auto.
Qed.

Lemma subtree_height t' t : subtree t' t → (height t' ≤ height t)%nat.
Proof.
  induction t as [|a l IHl v r IHr]; simpl.
  - by intros [->|[]].
  - intros [->|[H|H]]; simpl; [lia|apply IHl in H; lia|apply IHr in H; lia].
Qed.

(** Going down one level lowers the longest path by at least as much as
    the shortest one. *)
Lemma subtree_depths t' t :
  subtree t' t →
  ∃ d, (height t' + d ≤ height t)%nat ∧ (min_height t ≤ min_height t' + d)%nat.
Proof.
  induction t as [|a l IHl v r IHr]; simpl.
  - intros [->|[]]. exists 0%nat. simpl. lia.
  - intros [->|[H|H]].
    + exists 0%nat. simpl. lia.
    + destruct (IHl H) as (d & ? & ?). exists (S d). lia.
    + destruct (IHr H) as (d & ? & ?). exists (S d). lia.
Qed.

Lemma balanced_subtrees t :
  Z.of_nat (height t) - Z.of_nat (min_height t) ≤ 1 ↔
  ∀ t', subtree t' t → Z.of_nat (height t') - Z.of_nat (min_height t') ≤ 1.
Proof.
  split.
  - intros H t' Hsub. destruct (subtree_depths _ _ Hsub) as (d & ? & ?). lia.
  - intros H. apply H, subtree_refl.
Qed.

(** ** Sortedness of the in-order sequence *)

Lemma bst_bst_le t : bst t → bst_le t.
Proof.
  induction t as [|a l IHl v r IHr]; simpl; [done|].
  intros (Hl & Hr & ? & ?). split_and!; auto.
  eapply Forall_impl; [exact Hr|]. simpl. intros. lia.
Qed.

Lemma bst_le_sorted t : bst_le t → StronglySorted Z.le (inorder t).
Proof.
  induction t as [|a l IHl v r IHr]; simpl; [constructor|].
  intros (Hl & Hr & Hbl & Hbr).
  apply StronglySorted_app_2; auto.
  - intros x y Hx Hy. rewrite Forall_forall in Hl, Hr.
    apply Hl in Hx. apply elem_of_cons in Hy as [->|Hy]; [lia|].
    apply Hr in Hy. lia.
  - constructor; auto.
Qed.

(** ** The methods that only read *)


Lemma readonly_ret {A} (a : A) : readonly (ret a).
Proof. done. Qed.

Lemma readonly_out_of_fuel {A} : readonly (@out_of_fuel A).
Proof. done. Qed.

Lemma readonly_bind {A B} (m : M A) (k : A → M B) :
  readonly m → (∀ a, readonly (k a)) → readonly (bind m k).
Proof.
  intros Hm Hk s. unfold bind. specialize (Hm s).
  destruct (m s) as [[a| |] s1]; simpl in *; subst; auto. apply Hk.
Qed.

Lemma readonly_deref p : readonly (deref p).
Proof. intros s. unfold deref. destruct p; [|done]. by destruct (heap s !! l). Qed.

Lemma readonly_get_val p : readonly (get_val p).
Proof. apply readonly_bind; [apply readonly_deref|]. intros; apply readonly_ret. Qed.

Lemma readonly_get_left p : readonly (get_left p).
Proof. apply readonly_bind; [apply readonly_deref|]. intros; apply readonly_ret. Qed.

Lemma readonly_get_right p : readonly (get_right p).
Proof. apply readonly_bind; [apply readonly_deref|]. intros; apply readonly_ret. Qed.

Lemma readonly_opt_val p : readonly (opt_val p).
Proof.
  destruct p; simpl; [|apply readonly_ret].
  apply readonly_bind; [apply readonly_get_val|]. intros; apply readonly_ret.
Qed.

Lemma readonly_get_root : readonly get_root.
Proof. done. Qed.

Ltac readonly_step :=
  first
    [ assumption
    | apply readonly_ret | apply readonly_out_of_fuel
    | apply readonly_get_val | apply readonly_get_left
    | apply readonly_get_right | apply readonly_opt_val
    | apply readonly_get_root
    | apply readonly_bind; [|intros ?]
    | match goal with
      | IH : ∀ _, readonly _ |- _ => apply IH
      | IH : ∀ _ _, readonly _ |- _ => apply IH
      | IH : ∀ _ _ _, readonly _ |- _ => apply IH
      | |- readonly (if ?b then _ else _) => destruct b
      | |- readonly (match ?x with _ => _ end) => destruct x
      end ].

Ltac readonly_auto := repeat readonly_step.

Lemma readonly_find_loop fuel : ∀ v cur found, readonly (find_loop fuel v cur found).
Proof. induction fuel as [|fuel IH]; intros; simpl; readonly_auto. Qed.

Lemma readonly_find fuel v : readonly (find fuel v).
Proof. pose proof (readonly_find_loop fuel). unfold find. readonly_auto. Qed.

Lemma readonly_findRecursively_from fuel :
  ∀ v cur, readonly (findRecursively_from fuel v cur).
Proof. induction fuel as [|fuel IH]; intros; simpl; readonly_auto. Qed.

Lemma readonly_traverse_pre fuel : ∀ node data, readonly (traverse_pre fuel node data).
Proof. induction fuel as [|fuel IH]; intros; simpl; readonly_auto. Qed.

Lemma readonly_traverse_in fuel : ∀ node data, readonly (traverse_in fuel node data).
Proof. induction fuel as [|fuel IH]; intros; simpl; readonly_auto. Qed.

Lemma readonly_traverse_post fuel : ∀ node data, readonly (traverse_post fuel node data).
Proof. induction fuel as [|fuel IH]; intros; simpl; readonly_auto. Qed.

Lemma readonly_bfs_loop fuel : ∀ queue data, readonly (bfs_loop fuel queue data).
Proof.
  induction fuel as [|fuel IH]; intros [|node queue] data; simpl; readonly_auto.
Qed.

Lemma readonly_minDepth fuel : ∀ node, readonly (minDepth fuel node).
Proof. induction fuel as [|fuel IH]; intros; simpl; readonly_auto. Qed.

Lemma readonly_maxDepth fuel : ∀ node, readonly (maxDepth fuel node).
Proof. induction fuel as [|fuel IH]; intros; simpl; readonly_auto. Qed.

Lemma readonly_isBalanced_from fuel node : readonly (isBalanced_from fuel node).
Proof.
  pose proof (readonly_minDepth fuel). pose proof (readonly_maxDepth fuel).
  unfold isBalanced_from. readonly_auto.
Qed.

Lemma readonly_findSecondHighest_loop self :
  (∀ c, readonly (self c)) →
  ∀ fuel cur, readonly (findSecondHighest_loop self fuel cur).
Proof.
  intros Hself. induction fuel as [|fuel IH]; intros; simpl; readonly_auto.
Qed.

Lemma readonly_findSecondHighest_from fuel :
  ∀ cur, readonly (findSecondHighest_from fuel cur).
Proof.
  induction fuel as [|fuel IH]; intros; simpl; [done|].
  pose proof (readonly_findSecondHighest_loop _ IH fuel). readonly_auto.
Qed.

Lemma readonly_push_lefts fuel : ∀ stack cur, readonly (push_lefts fuel stack cur).
Proof. induction fuel as [|fuel IH]; intros; simpl; readonly_auto. Qed.

Lemma readonly_inorder_loop fuel :
  ∀ stack cur dfs, readonly (inorder_loop fuel stack cur dfs).
Proof.
  induction fuel as [|fuel IH]; intros; simpl; [readonly_auto|].
  pose proof (readonly_push_lefts fuel). readonly_auto.
Qed.

(** ** Fuel is only a bound: more fuel extends a computation *)


Lemma extends_refl {A} (m : M A) : extends m m.
Proof. by intros s o s' H _. Qed.

Lemma extends_out_of_fuel {A} (m : M A) : extends out_of_fuel m.
Proof. intros s o s' [= <- <-] []. Qed.

Lemma extends_bind {A B} (m m' : M A) (k k' : A → M B) :
  extends m m' → (∀ a, extends (k a) (k' a)) → extends (bind m k) (bind m' k').
Proof.
  intros Hm Hk s o s'. unfold bind.
  destruct (m s) as [[a| |] s1] eqn:E; intros H Ho.
  - rewrite (Hm _ _ _ E I). by apply Hk.
  - rewrite (Hm _ _ _ E I). done.
  - injection H as <- <-. destruct Ho.
Qed.

Ltac extends_step :=
  first
    [ apply extends_refl
    | apply extends_out_of_fuel
    | match goal with H : _ |- extends _ _ => solve [apply H; lia] end
    | apply extends_bind; [|intros ?]
    | match goal with
      | |- extends (if ?b then _ else _) _ => destruct b
      | |- extends (match ?x with _ => _ end) _ => destruct x
      end ].

Ltac extends_auto := repeat extends_step.

Lemma insert_loop_mono n : ∀ m, (n ≤ m)%nat →
  ∀ v cur, extends (insert_loop n v cur) (insert_loop m v cur).
Proof.
  induction n as [|n IH]; intros m Hm v cur; [apply extends_out_of_fuel|].
  destruct m as [|m]; [lia|]. simpl. extends_auto.
Qed.

Lemma insert_mono n m v : (n ≤ m)%nat → extends (insert n v) (insert m v).
Proof.
  intros Hm. pose proof (insert_loop_mono n) as IH. unfold insert. extends_auto.
Qed.

Lemma insertRecursively_from_mono n : ∀ m, (n ≤ m)%nat →
  ∀ v cur, extends (insertRecursively_from n v cur) (insertRecursively_from m v cur).
Proof.
  induction n as [|n IH]; intros m Hm v cur; [apply extends_out_of_fuel|].
  destruct m as [|m]; [lia|]. simpl. extends_auto.
Qed.

Lemma insertRecursively_mono n m v :
  (n ≤ m)%nat → extends (insertRecursively n v) (insertRecursively m v).
Proof.
  intros Hm. pose proof (insertRecursively_from_mono n) as IH.
  unfold insertRecursively. extends_auto.
Qed.

Lemma remove_search_mono n : ∀ m, (n ≤ m)%nat →
  ∀ v node parent,
    extends (remove_search n v node parent) (remove_search m v node parent).
Proof.
  induction n as [|n IH]; intros m Hm v node parent.
  - destruct m; simpl; extends_auto.
  - destruct m as [|m]; [lia|]. simpl. extends_auto.
Qed.

Lemma leftmost_loop_mono n : ∀ m, (n ≤ m)%nat →
  ∀ rp r, extends (leftmost_loop n rp r) (leftmost_loop m rp r).
Proof.
  induction n as [|n IH]; intros m Hm rp r.
  - destruct m; simpl; extends_auto.
  - destruct m as [|m]; [lia|]. simpl. extends_auto.
Qed.

Lemma remove_node_mono n m node parent :
  (n ≤ m)%nat → extends (remove_node n node parent) (remove_node m node parent).
Proof.
  intros Hm. pose proof (leftmost_loop_mono n) as IH.
  unfold remove_node. extends_auto.
Qed.

Lemma remove_mono n m v : (n ≤ m)%nat → extends (remove n v) (remove m v).
Proof.
  intros Hm. pose proof (remove_search_mono n) as IH.
  pose proof (λ node parent, remove_node_mono n m node parent Hm).
  unfold remove. extends_auto.
Qed.

(** ** Insertion *)

Lemma tinsert_ptr a v t : t ≠ Leaf → ptr (tinsert a v t) = ptr t.
Proof. destruct t as [|b l x r]; [done|]. intros _. simpl. by destruct (v <? x). Qed.

Lemma tinsert_addrs a v t : addrs (tinsert a v t) ≡ₚ a :: addrs t.
Proof.
  induction t as [|b l IHl x r IHr]; simpl; [done|].
  destruct (v <? x); simpl.
  - by rewrite IHl.
  - by rewrite IHr, (Permutation_swap a b), <- Permutation_middle.
Qed.

Lemma tinsert_inorder a v t : inorder (tinsert a v t) ≡ₚ v :: inorder t.
Proof.
  induction t as [|b l IHl x r IHr]; simpl; [done|].
  destruct (v <? x); simpl.
  - by rewrite IHl.
  - by rewrite IHr, (Permutation_swap v x), <- Permutation_middle.
Qed.

Lemma tinsert_unshared a v t : unshared t → a ∉ addrs t → unshared (tinsert a v t).
Proof.
  unfold unshared. intros Hnd Ha. rewrite tinsert_addrs. by constructor.
Qed.

Lemma tinsert_bst_le a v t : bst_le t → bst_le (tinsert a v t).
Proof.
  induction t as [|b l IHl x r IHr]; simpl; [by repeat constructor|].
  intros (Hl & Hr & Hbl & Hbr). destruct (v <? x) eqn:E; simpl.
  - split_and!; auto. rewrite tinsert_inorder. constructor; [lia|done].
  - split_and!; auto. rewrite tinsert_inorder. constructor; [lia|done].
Qed.

Lemma tinsert_bst a v t : bst t → v ∉ inorder t → bst (tinsert a v t).
Proof.
  induction t as [|b l IHl x r IHr]; simpl; [by repeat constructor|].
  intros (Hl & Hr & Hbl & Hbr) Hv.
  assert ((v ≠ x) ∧ (v ∉ inorder l) ∧ (v ∉ inorder r)) as (? & ? & ?) by set_solver.
  destruct (v <? x) eqn:E; simpl.
  - split_and!; auto. rewrite tinsert_inorder. constructor; [lia|done].
  - split_and!; auto. rewrite tinsert_inorder. constructor; [lia|done].
Qed.

Lemma unshared_inv a l v r :
  unshared (Br a l v r) →
  unshared l ∧ unshared r ∧ (a ∉ addrs l) ∧ (a ∉ addrs r) ∧
  (∀ x, x ∈ addrs l → x ∉ addrs r).
Proof.
  unfold unshared. simpl. intros H.
  apply NoDup_app in H as (Hl & Hd & H). apply NoDup_cons in H as [Ha Hr].
  split_and!; auto.
  - intros Hin. apply (Hd _ Hin). by left.
  - intros x Hx Hx'. apply (Hd _ Hx). by right.
Qed.

Lemma insertRecursively_from_spec t :
  ∀ h rt v fuel,
    is_null rt = false → t ≠ Leaf → shape h t → unshared t →
    (height t ≤ fuel)%nat →
    ∃ h',
      insertRecursively_from fuel v (ptr t) (mkStore h rt)
      = (Ret this, mkStore h' rt) ∧
      shape h' (tinsert (fresh (dom h)) v t) ∧
      (∀ x, x ∉ addrs t → x ≠ fresh (dom h) → h' !! x = h !! x).
Proof.
  induction t as [|a l IHl x r IHr]; intros h rt v fuel Hrt Hnl Hs Hu Hf; [done|].
  destruct Hs as (Ha & Hl & Hr).
  destruct (unshared_inv _ _ _ _ Hu) as (Hul & Hur & Hal & Har & Hlr).
  simpl in Hf. destruct fuel as [|fuel]; [lia|].
  assert (Hfr : h !! fresh (dom h) = None) by apply fresh_heap.
  assert (Haa' : a ≠ fresh (dom h)) by (intros Heq; congruence).
  assert (Hfl : fresh (dom h) ∉ addrs l) by by apply shape_fresh.
  assert (Hfrr : fresh (dom h) ∉ addrs r) by by apply shape_fresh.
  cbn [insertRecursively_from ptr]. step. rewrite Hrt. step.
  unfold js_lt. cbn [to_number tinsert]. destruct (v <? x) eqn:E.
  - step. destruct l as [|b ll y lr].
    + simpl. steps. eexists. split; [reflexivity|]. split.
      * simpl. split_and!; auto.
        -- by rewrite lookup_insert_eq.
        -- rewrite lookup_insert_ne by done. by rewrite lookup_insert_eq.
        -- eapply shape_agree; [exact Hr|]. intros z Hz.
           rewrite !lookup_insert_ne by set_solver. done.
      * intros z Hz Hz'. rewrite !lookup_insert_ne by set_solver. done.
    + change (is_null (ptr (Br b ll y lr))) with false. cbv iota.
      destruct (IHl h rt v fuel) as (h' & Hrun & Hsh & Hfrm); auto; [lia|].
      exists h'. split; [exact Hrun|]. split.
      * cbn [shape]. rewrite tinsert_ptr by done. split_and!; auto.
        -- rewrite Hfrm; auto.
        -- eapply shape_agree; [exact Hr|]. intros z Hz. apply Hfrm; [|by intros ->].
           intros Hz'. by apply (Hlr z).
      * intros z Hz Hz'. apply Hfrm; [intros ?; apply Hz, elem_of_app; by left|done].
  - step. destruct r as [|b rl y rr].
    + simpl. steps. eexists. split; [reflexivity|]. split.
      * simpl. split_and!; auto.
        -- by rewrite lookup_insert_eq.
        -- eapply shape_agree; [exact Hl|]. intros z Hz.
           rewrite !lookup_insert_ne by set_solver. done.
        -- rewrite lookup_insert_ne by done. by rewrite lookup_insert_eq.
      * intros z Hz Hz'. rewrite !lookup_insert_ne by set_solver. done.
    + change (is_null (ptr (Br b rl y rr))) with false. cbv iota.
      destruct (IHr h rt v fuel) as (h' & Hrun & Hsh & Hfrm); auto; [lia|].
      exists h'. split; [exact Hrun|]. split.
      * cbn [shape]. rewrite tinsert_ptr by done. split_and!; auto.
        -- rewrite Hfrm; auto.
        -- eapply shape_agree; [exact Hl|]. intros z Hz. apply Hfrm; [|by intros ->].
           intros Hz'. by apply (Hlr z).
      * intros z Hz Hz'. apply Hfrm; [intros ?; apply Hz, elem_of_app; right; by right|done].
Qed.

(** The loop of [insert] does what [insertRecursively] does as long as it
    meets no node that holds the value; at such a node it spins. *)

Lemma insert_loop_spin h rt a n v :
  h !! a = Some n → val n = JNum v →
  ∀ fuel, insert_loop fuel v (Some a) (mkStore h rt) = (OutOfFuel, mkStore h rt).
Proof.
  intros Ha Hv. induction fuel as [|fuel IH]; [done|].
  simpl. step. rewrite Hv. unfold js_lt, js_gt. simpl.
  by rewrite !Z.ltb_irrefl.
Qed.

Lemma insert_loop_cases t :
  ∀ h rt v fuel,
    is_null rt = false → t ≠ Leaf → shape h t →
    insert_loop fuel v (ptr t) (mkStore h rt) = (OutOfFuel, mkStore h rt) ∨
    insert_loop fuel v (ptr t) (mkStore h rt)
    = insertRecursively_from fuel v (ptr t) (mkStore h rt).
Proof.
  induction t as [|a l IHl x r IHr]; intros h rt v fuel Hrt Hnl Hs; [done|].
  destruct Hs as (Ha & Hl & Hr).
  destruct fuel as [|fuel]; [by left|].
  destruct (decide (x = v)) as [->|Hne].
  { left. by eapply insert_loop_spin. }
  cbn [insert_loop insertRecursively_from ptr]. steps. rewrite Hrt. steps.
  unfold js_lt, js_gt. cbn [to_number]. destruct (v <? x) eqn:E.
  - steps. destruct l as [|b ll y lr]; [by right|].
    change (is_null (ptr (Br b ll y lr))) with false. cbv iota.
    by apply IHl.
  - assert ((x <? v) = true) as -> by lia.
    steps. destruct r as [|b rl y rr]; [by right|].
    change (is_null (ptr (Br b rl y rr))) with false. cbv iota.
    by apply IHr.
Qed.

Lemma insert_loop_absent t :
  ∀ h rt v fuel,
    is_null rt = false → t ≠ Leaf → shape h t → v ∉ inorder t →
    insert_loop fuel v (ptr t) (mkStore h rt)
    = insertRecursively_from fuel v (ptr t) (mkStore h rt).
Proof.
  induction t as [|a l IHl x r IHr]; intros h rt v fuel Hrt Hnl Hs Hv; [done|].
  destruct Hs as (Ha & Hl & Hr).
  assert ((v ≠ x) ∧ (v ∉ inorder l) ∧ (v ∉ inorder r)) as (? & ? & ?)
    by (simpl in Hv; set_solver).
  destruct fuel as [|fuel]; [done|].
  cbn [insert_loop insertRecursively_from ptr]. steps. rewrite Hrt. steps.
  unfold js_lt, js_gt. cbn [to_number]. destruct (v <? x) eqn:E.
  - steps. destruct l as [|b ll y lr]; [done|].
    change (is_null (ptr (Br b ll y lr))) with false. cbv iota.
    by apply IHl.
  - assert ((x <? v) = true) as -> by lia.
    steps. destruct r as [|b rl y rr]; [done|].
    change (is_null (ptr (Br b rl y rr))) with false. cbv iota.
    by apply IHr.
Qed.

(** In an ordered tree the comparison path leads to every value present,
    so [insert] of a value already there never returns. *)
Lemma insert_loop_present t :
  ∀ h rt v,
    shape h t → bst_le t → v ∈ inorder t →
    ∀ fuel, insert_loop fuel v (ptr t) (mkStore h rt) = (OutOfFuel, mkStore h rt).
Proof.
  induction t as [|a l IHl x r IHr]; intros h rt v Hs Hb Hv fuel.
  { by apply elem_of_nil in Hv. }
  destruct Hs as (Ha & Hl & Hr). destruct Hb as (Hfl & Hfr & Hbl & Hbr).
  destruct (decide (x = v)) as [->|Hne]; [by eapply insert_loop_spin|].
  destruct fuel as [|fuel]; [done|].
  rewrite Forall_forall in Hfl, Hfr.
  cbn [insert_loop ptr]. steps.
  unfold js_lt, js_gt. cbn [to_number]. destruct (v <? x) eqn:E.
  - assert (v ∈ inorder l) as Hvl.
    { simpl in Hv. apply elem_of_app in Hv as [?|Hv]; [done|].
      apply elem_of_cons in Hv as [?|Hv]; [congruence|]. apply Hfr in Hv. lia. }
    steps. destruct l as [|b ll y lr]; [by apply elem_of_nil in Hvl|].
    change (is_null (ptr (Br b ll y lr))) with false. cbv iota.
    by apply IHl.
  - assert ((x <? v) = true) as -> by lia.
    assert (v ∈ inorder r) as Hvr.
    { simpl in Hv. apply elem_of_app in Hv as [Hv|Hv]; [apply Hfl in Hv; lia|].
      apply elem_of_cons in Hv as [?|Hv]; [congruence|done]. }
    steps. destruct r as [|b rl y rr]; [by apply elem_of_nil in Hvr|].
    change (is_null (ptr (Br b rl y rr))) with false. cbv iota.
    by apply IHr.
Qed.

(** *** The two methods on a represented tree *)

Lemma insertRecursively_spec s t v fuel :
  repr s t → unshared t → (height t ≤ fuel)%nat → (0 < fuel)%nat →
  ∃ s',
    insertRecursively fuel v s = (Ret this, s') ∧
    repr s' (tinsert (fresh (dom (heap s))) v t).
Proof.
  destruct s as [h rt]. intros [Hrt Hs] Hu Hf Hf'. simpl in *. subst rt.
  unfold insertRecursively. step.
  destruct t as [|a l x r].
  - destruct fuel as [|fuel]; [lia|]. simpl. steps.
    eexists. split; [reflexivity|]. split; [done|]. simpl.
    by rewrite lookup_insert_eq.
  - destruct (insertRecursively_from_spec (Br a l x r) h (Some a) v fuel)
      as (h' & Hrun & Hsh & _); auto.
    exists (mkStore h' (Some a)). split; [exact Hrun|]. split; [|done].
    cbn [root]. by rewrite tinsert_ptr.
Qed.

Lemma insert_spec s t v fuel :
  repr s t → unshared t → v ∉ inorder t → (height t ≤ fuel)%nat →
  ∃ s',
    insert fuel v s = (Ret this, s') ∧
    insertRecursively (S fuel) v s = (Ret this, s') ∧
    repr s' (tinsert (fresh (dom (heap s))) v t).
Proof.
  intros Hrepr Hu Hv Hf.
  destruct (insertRecursively_spec s t v (S fuel)) as (s' & Hrun & Hrepr');
    auto; try lia.
  exists s'. split_and!; auto.
  destruct s as [h rt]. destruct Hrepr as [Hrt Hs]. simpl in *. subst rt.
  unfold insert. step. destruct t as [|a l x r].
  - simpl. rewrite <- Hrun. unfold insertRecursively. by steps.
  - change (is_null (ptr (Br a l x r))) with false. cbv iota.
    rewrite insert_loop_absent by done.
    destruct (insertRecursively_from_spec (Br a l x r) h (ptr (Br a l x r)) v fuel)
      as (h' & Hrun' & _); auto.
    rewrite Hrun'. rewrite <- Hrun. symmetry.
    unfold insertRecursively. step.
    eapply (insertRecursively_from_mono fuel (S fuel)); [lia|exact Hrun'|done].
Qed.

(** Whatever the fuel, a call of [insert] that returns did what
    [insertRecursively] does. *)
Lemma insert_returns s t v fuel s' :
  repr s t → insert fuel v s = (Ret this, s') →
  insertRecursively (S fuel) v s = (Ret this, s').
Proof.
  destruct s as [h rt]. intros [Hrt Hs] Hrun. simpl in *. subst rt.
  unfold insert in Hrun. unfold insertRecursively.
  rewrite (bind_Ret _ _ _ _ _ (get_root_eq _ _)) in Hrun. step.
  destruct t as [|a l x r].
  - simpl in *. exact Hrun.
  - change (is_null (ptr (Br a l x r))) with false in Hrun. cbv iota in Hrun.
    destruct (insert_loop_cases (Br a l x r) h (ptr (Br a l x r)) v fuel)
      as [E|E]; auto.
    + rewrite E in Hrun. discriminate.
    + rewrite E in Hrun.
      eapply (insertRecursively_from_mono fuel (S fuel)); [lia|exact Hrun|done].
Qed.

(** ** Removal: the represented tree *)

Lemma del_leftmost_inorder t :
  t ≠ Leaf → inorder t = value_of (leftmost t) :: inorder (del_leftmost t).
Proof.
  induction t as [|b l IHl y r IHr]; [done|]. intros _.
  destruct l as [|c ll z lr]; [done|].
  cbn [leftmost del_leftmost inorder] in *. by rewrite IHl.
Qed.

Lemma del_leftmost_addrs t : addrs (del_leftmost t) `sublist_of` addrs t.
Proof.
  induction t as [|b l IHl y r IHr]; [done|].
  destruct l as [|c ll z lr].
  - simpl. by apply sublist_cons.
  - cbn [del_leftmost addrs] in *. by apply sublist_app.
Qed.

Lemma del_leftmost_ptr t : left_of t ≠ Leaf → ptr (del_leftmost t) = ptr t.
Proof. destruct t as [|b [|c ll z lr] y r]; done. Qed.

Lemma del_root_inorder a l x r :
  inorder (del_root (Br a l x r)) = inorder l ++ inorder r.
Proof.
  destruct l as [|b ll y lr], r as [|c rl z rr]; try done.
  - simpl. by rewrite app_nil_r.
  - destruct rl as [|d rll w rlr]; [done|].
    set (r := Br c (Br d rll w rlr) z rr). set (l := Br b ll y lr).
    change (del_root (Br a l x r))
      with (Br a l (value_of (leftmost r)) (del_leftmost r)).
    cbn [inorder]. by rewrite <- del_leftmost_inorder.
Qed.

Lemma del_root_addrs t : addrs (del_root t) `sublist_of` addrs t.
Proof.
  destruct t as [|a l x r]; [done|].
  destruct l as [|b ll y lr], r as [|c rl z rr]; simpl.
  - apply sublist_nil_l.
  - by apply sublist_cons.
  - rewrite <- (app_nil_r (addrs ll ++ b :: addrs lr)) at 1.
    apply sublist_app; [done|apply sublist_nil_l].
  - destruct rl as [|d rll w rlr].
    + simpl. apply sublist_app; [done|]. by apply sublist_cons.
    + cbn [addrs]. apply sublist_app; [done|]. apply sublist_skip.
      apply (del_leftmost_addrs (Br c (Br d rll w rlr) z rr)).
Qed.

Lemma tremove_inorder v t : inorder (tremove v t) `sublist_of` inorder t.
Proof.
  induction t as [|a l IHl x r IHr]; [done|].
  cbn [tremove]. case_bool_decide.
  - rewrite del_root_inorder. simpl. apply sublist_app; [done|].
    by apply sublist_cons.
  - destruct (v <? x); simpl.
    + by apply sublist_app.
    + apply sublist_app; [done|]. by apply sublist_skip.
Qed.

Lemma tremove_addrs v t : addrs (tremove v t) `sublist_of` addrs t.
Proof.
  induction t as [|a l IHl x r IHr]; [done|].
  cbn [tremove]. case_bool_decide; [apply del_root_addrs|].
  destruct (v <? x); simpl.
  - by apply sublist_app.
  - apply sublist_app; [done|]. by apply sublist_skip.
Qed.

Lemma tremove_unshared v t : unshared t → unshared (tremove v t).
Proof. unfold unshared. intros H. eapply sublist_NoDup, tremove_addrs. done. Qed.

Lemma sublist_Forall' {A} (P : A → Prop) (l1 l2 : list A) :
  l1 `sublist_of` l2 → Forall P l2 → Forall P l1.
Proof.
  intros Hsub. rewrite !Forall_forall. intros H x Hx.
  apply H. by eapply elem_of_sublist.
Qed.

Lemma del_leftmost_bst_le t : bst_le t → bst_le (del_leftmost t).
Proof.
  induction t as [|b l IHl y r IHr]; [done|].
  intros (Hfl & Hfr & Hbl & Hbr).
  destruct l as [|c ll z lr]; [done|].
  cbn [del_leftmost bst_le]. split_and!; auto.
  eapply sublist_Forall'; [|exact Hfl].
  pose proof (del_leftmost_inorder (Br c ll z lr)) as E.
  rewrite E by done. by apply sublist_cons.
Qed.

Lemma leftmost_elem t : t ≠ Leaf → value_of (leftmost t) ∈ inorder t.
Proof. intros H. rewrite (del_leftmost_inorder t H). by left. Qed.

Lemma del_root_bst_le t : bst_le t → bst_le (del_root t).
Proof.
  destruct t as [|a l x r]; [done|].
  intros (Hfl & Hfr & Hbl & Hbr).
  destruct l as [|b ll y lr], r as [|c rl z rr]; try done.
  set (l := Br b ll y lr) in *.
  destruct rl as [|d rll w rlr].
  - change (del_root (Br a l x (Br c Leaf z rr))) with (Br c l z rr).
    destruct Hbr as (_ & Hrr & _ & Hbrr).
    cbn [bst_le]. split_and!; auto.
    apply Forall_cons in Hfr as [Hz _].
    eapply Forall_impl; [exact Hfl|]. simpl. intros; lia.
  - set (r := Br c (Br d rll w rlr) z rr) in *.
    change (del_root (Br a l x r))
      with (Br a l (value_of (leftmost r)) (del_leftmost r)).
    assert (Hr : r ≠ Leaf) by done.
    pose proof (leftmost_elem r Hr) as Hm.
    pose proof (bst_le_sorted r Hbr) as Hsorted.
    rewrite (del_leftmost_inorder r Hr) in Hsorted.
    apply StronglySorted_inv in Hsorted as [_ Hall].
    cbn [bst_le]. split_and!; auto using del_leftmost_bst_le.
    rewrite Forall_forall in Hfr. apply Hfr in Hm. cbv beta in Hm.
    eapply Forall_impl; [exact Hfl|]. cbv beta. intros; lia.
Qed.

Lemma tremove_bst_le v t : bst_le t → bst_le (tremove v t).
Proof.
  induction t as [|a l IHl x r IHr]; [done|].
  intros Hb. cbn [tremove]. case_bool_decide; [by apply del_root_bst_le|].
  destruct Hb as (Hfl & Hfr & Hbl & Hbr).
  destruct (v <? x); cbn [bst_le]; split_and!; auto.
  - eapply sublist_Forall'; [apply tremove_inorder|done].
  - eapply sublist_Forall'; [apply tremove_inorder|done].
Qed.

Lemma tremove_ptr v t :
  on_path v t = true → found_node v t ≠ ptr t → ptr (tremove v t) = ptr t.
Proof.
  destruct t as [|a l x r]; [done|]. simpl. case_bool_decide; [done|].
  by destruct (v <? x).
Qed.

Lemma found_node_addrs v t :
  on_path v t = true → ∃ a, found_node v t = Some a ∧ a ∈ addrs t.
Proof.
  induction t as [|a l IHl x r IHr]; [done|]. cbn [on_path found_node].
  case_bool_decide.
  - intros _. exists a. split; [done|]. in_addrs.
  - destruct (v <? x); intros Hp.
    + destruct (IHl Hp) as (c & ? & ?). exists c. split; [done|]. in_addrs.
    + destruct (IHr Hp) as (c & ? & ?). exists c. split; [done|]. in_addrs.
Qed.

(** ** Removal: the code *)

Lemma remove_search_spec h rt v t :
  shape h t → ∀ fuel parent, (height t < fuel)%nat →
  remove_search fuel v (ptr t) parent (mkStore h rt)
  = if on_path v t
    then (Ret (found_node v t, found_parent v parent t), mkStore h rt)
    else (TypeError, mkStore h rt).
Proof.
  induction t as [|a l IHl x r IHr]; intros Hs fuel parent Hf.
  - destruct fuel as [|fuel]; [lia|]. done.
  - destruct Hs as (Ha & Hl & Hr). simpl in Hf.
    destruct fuel as [|fuel]; [lia|].
    cbn [remove_search ptr on_path found_node found_parent]. step.
    unfold strict_eq. case_bool_decide as E.
    + rewrite bool_decide_true by congruence. done.
    + rewrite bool_decide_false by congruence. simpl. step.
      unfold js_lt. cbn [to_number]. destruct (v <? x).
      * step. apply IHl; [done|lia].
      * step. apply IHr; [done|lia].
Qed.

Lemma leftmost_loop_spec h rt t :
  t ≠ Leaf → shape h t → ∀ fuel rp, (height t ≤ fuel)%nat →
  leftmost_loop fuel rp (ptr t) (mkStore h rt)
  = (Ret (leftmost_parent rp t, ptr (leftmost t)), mkStore h rt).
Proof.
  induction t as [|b l IHl y r IHr]; intros Hnl Hs fuel rp Hf; [done|].
  destruct Hs as (Hb & Hl & Hr). simpl in Hf.
  destruct l as [|c ll z lr].
  - destruct fuel; simpl; by step.
  - destruct fuel as [|fuel]; [lia|].
    simpl in *. step. apply IHl; [done|done|lia].
Qed.

(** Unlinking the leftmost node: its parent's left link takes its right
    subtree. *)
Lemma del_leftmost_shape t :
  ∀ h rp,
    left_of t ≠ Leaf → shape h t → unshared t →
    ∃ q nq,
      leftmost_parent rp t = Some q ∧ q ∈ addrs t ∧ h !! q = Some nq ∧
      shape (<[q := mkNode (val nq) (ptr (right_of (leftmost t))) (right nq)]> h)
            (del_leftmost t).
Proof.
  induction t as [|b l IHl y r IHr]; intros h rp Hl Hs Hu; [done|].
  destruct Hs as (Hb & Hsl & Hsr).
  destruct (unshared_inv _ _ _ _ Hu) as (Hul & Hur & Hbl & Hbr & Hlr).
  destruct l as [|c ll z lr]; [done|]. clear Hl.
  destruct ll as [|d lll w llr].
  - exists b, (mkNode (JNum y) (Some c) (ptr r)).
    split; [done|]. split; [in_addrs|]. split; [done|].
    destruct Hsl as (Hc & _ & Hslr).
    cbn [leftmost del_leftmost right_of shape val right]. split_and!.
    + by rewrite lookup_insert_eq.
    + eapply shape_agree; [exact Hslr|]. intros u Hu'.
      rewrite lookup_insert_ne; [done|]. intros ->. apply Hbl. in_addrs.
    + eapply shape_agree; [exact Hsr|]. intros u Hu'.
      rewrite lookup_insert_ne; [done|]. by intros ->.
  - set (l := Br c (Br d lll w llr) z lr) in *.
    destruct (IHl h (Some b)) as (q & nq & Hq & Hin & Hnq & Hsh); auto.
    exists q, nq. split; [done|]. split; [in_addrs|]. split; [done|].
    change (leftmost (Br b l y r)) with (leftmost l).
    change (del_leftmost (Br b l y r)) with (Br b (del_leftmost l) y r).
    cbn [shape]. split_and!.
    + rewrite lookup_insert_ne by (intros ->; by apply Hbl).
      by rewrite del_leftmost_ptr.
    + done.
    + eapply shape_agree; [exact Hsr|]. intros u Hu'.
      rewrite lookup_insert_ne; [done|]. intros ->. by apply (Hlr u).
Qed.

Lemma shape_Br h a l v r :
  h !! a = Some (mkNode (JNum v) (ptr l) (ptr r)) → shape h l → shape h r →
  shape h (Br a l v r).
Proof. intros. simpl. auto. Qed.

Lemma leftmost_node h t :
  t ≠ Leaf → shape h t →
  ∃ m, ptr (leftmost t) = Some m ∧ m ∈ addrs t ∧
       h !! m = Some (mkNode (JNum (value_of (leftmost t))) None
                             (ptr (right_of (leftmost t)))).
Proof.
  induction t as [|b l IHl y r IHr]; intros Hnl Hs; [done|].
  destruct Hs as (Hb & Hl & Hr).
  destruct l as [|c ll z lr].
  - exists b. split; [done|]. split; [in_addrs|done].
  - destruct IHl as (m & ? & ? & ?); [done|done|].
    exists m. split; [done|]. split; [in_addrs|done].
Qed.

Lemma relink_same pn a :
  left pn = Some a ∨ right pn = Some a → relink pn (Some a) (Some a) = pn.
Proof.
  intros H. unfold relink. destruct pn as [pv pl pr]. simpl in *.
  case_bool_decide; destruct H; congruence.
Qed.

Lemma remove_node_spec h rt pa pn a l x r fuel :
  h !! pa = Some pn → left pn = Some a ∨ right pn = Some a →
  shape h (Br a l x r) → unshared (Br a l x r) → pa ∉ addrs (Br a l x r) →
  (height (Br a l x r) ≤ fuel)%nat →
  ∃ h',
    remove_node fuel (Some a) (Some pa) (mkStore h rt) = (Ret (), mkStore h' rt) ∧
    h' !! pa = Some (relink pn (Some a) (ptr (del_root (Br a l x r)))) ∧
    shape h' (del_root (Br a l x r)) ∧
    (∀ z, z ∉ addrs (Br a l x r) → z ≠ pa → h' !! z = h !! z) ∧
    (copies_value (Br a l x r) = false → h' !! a = h !! a).
Proof.
  intros Hpa Hslot (Ha & Hl & Hr) Hu Hpa' Hf.
  destruct (unshared_inv _ _ _ _ Hu) as (Hul & Hur & Hal & Har & Hlr).
  assert (Hpaa : pa ≠ a) by (intros ->; apply Hpa'; in_addrs).
  assert (Hapa : a ≠ pa) by done.
  assert (Hpal : pa ∉ addrs l) by (intros ?; apply Hpa'; in_addrs).
  assert (Hpar : pa ∉ addrs r) by (intros ?; apply Hpa'; in_addrs).
  assert (Hone : ∀ c t',
    shape h t' → pa ∉ addrs t' → ptr t' = c →
    (let* pl := get_left (Some pa) in
     if ref_eqb pl (Some a) then set_left (Some pa) c else set_right (Some pa) c)
      (mkStore h rt)
    = (Ret (), mkStore (<[pa := relink pn (Some a) c]> h) rt) ∧
    <[pa := relink pn (Some a) c]> h !! pa = Some (relink pn (Some a) c) ∧
    shape (<[pa := relink pn (Some a) c]> h) t' ∧
    (∀ z, z ≠ pa → <[pa := relink pn (Some a) c]> h !! z = h !! z)).
  { intros c t' Hs' Hpt' Hc. split_and!.
    - step. unfold relink, ref_eqb.
      case_bool_decide; [by apply set_left_eq|by apply set_right_eq].
    - by rewrite lookup_insert_eq.
    - eapply shape_agree; [exact Hs'|]. intros z Hz.
      rewrite lookup_insert_ne; [done|]. by intros ->.
    - intros z Hz. by rewrite lookup_insert_ne. }
  unfold remove_node.
  destruct l as [|b ll y lr], r as [|c rl z rr].
  - (* no children *)
    do 2 step. destruct (Hone None Leaf) as (Hrun & ? & ? & ?); [done|apply not_elem_of_nil|done|].
    eexists. split; [exact Hrun|]. split_and!; auto.
  - (* right child only *)
    set (r := Br c rl z rr) in *.
    destruct (Hone (ptr r) r) as (Hrun & ? & ? & ?); [done|done|done|].
    eexists. split; [|split_and!; eauto].
    rewrite <- Hrun. steps. unfold ref_eqb. by case_bool_decide; steps.
  - (* left child only *)
    set (l := Br b ll y lr) in *.
    destruct (Hone (ptr l) l) as (Hrun & ? & ? & ?); [done|done|done|].
    eexists. split; [|split_and!; eauto].
    rewrite <- Hrun. steps. unfold ref_eqb. by case_bool_decide; steps.
  - (* two children *)
    set (l := Br b ll y lr) in *.
    destruct Hr as (Hc & Hrl & Hrr).
    destruct (unshared_inv _ _ _ _ Hur) as (Hurl & Hurr & Hcl & Hcr & Hrlr).
    assert (Hac : a ≠ c) by (intros ->; apply Har; in_addrs).
    assert (Hpac : pa ≠ c) by (intros ->; apply Hpar; in_addrs).
    destruct rl as [|d rll w rlr].
    + (* the right child has no left child: it replaces the node *)
      change (del_root (Br a l x (Br c Leaf z rr))) with (Br c l z rr).
      set (h1 := <[c := mkNode (JNum z) (ptr l) (ptr rr)]> h).
      assert (Hpa1 : h1 !! pa = Some pn)
        by (unfold h1; by rewrite lookup_insert_ne).
      exists (<[pa := relink pn (Some a) (Some c)]> h1).
      split; [|split; [|split; [|split]]].
      * do 5 step. fold l h1. step. unfold relink, ref_eqb.
        case_bool_decide; [by apply set_left_eq|by apply set_right_eq].
      * by rewrite lookup_insert_eq.
      * apply shape_Br.
        -- rewrite lookup_insert_ne by done. unfold h1.
           by rewrite lookup_insert_eq.
        -- eapply shape_agree; [exact Hl|]. intros u Hu'.
           rewrite lookup_insert_ne by (intros ->; by apply Hpal).
           unfold h1. rewrite lookup_insert_ne; [done|].
           intros <-. apply (Hlr c Hu'). in_addrs.
        -- eapply shape_agree; [exact Hrr|]. intros u Hu'.
           rewrite lookup_insert_ne by (intros ->; apply Hpar; in_addrs).
           unfold h1. rewrite lookup_insert_ne; [done|].
           by intros ->.
      * intros u Hu' Hupa. rewrite lookup_insert_ne by done.
        unfold h1. rewrite lookup_insert_ne; [done|].
        intros ->. apply Hu'. in_addrs.
      * intros _. rewrite lookup_insert_ne by done.
        unfold h1. by rewrite lookup_insert_ne.
    + (* the leftmost node of the right subtree gives its value *)
      set (r := Br c (Br d rll w rlr) z rr) in *.
      assert (Hsr : shape h r) by (split_and!; done).
      change (del_root (Br a l x r))
        with (Br a l (value_of (leftmost r)) (del_leftmost r)).
      destruct (leftmost_node h r) as (m & Hm & Hmin & Hmn); [done|done|].
      set (mv := value_of (leftmost r)) in *.
      set (h1 := <[a := mkNode (JNum mv) (ptr l) (ptr r)]> h).
      assert (Hsr1 : shape h1 r).
      { eapply shape_agree; [exact Hsr|]. intros u Hu'. unfold h1.
        rewrite lookup_insert_ne; [done|]. by intros ->. }
      destruct (del_leftmost_shape r h1 (Some a)) as (q & nq & Hq & Hqin & Hnq & Hsh);
        [done|done|done|].
      assert (Haq : a ≠ q) by (by intros ->).
      assert (Ham : a ≠ m) by (by intros ->).
      assert (Hpaq : pa ≠ q) by (by intros ->).
      assert (Hnq0 : h !! q = Some nq)
        by (unfold h1 in Hnq; by rewrite lookup_insert_ne in Hnq).
      set (h2 := <[q := mkNode (val nq) (ptr (right_of (leftmost r))) (right nq)]> h1) in *.
      exists h2. split; [|split; [|split; [|split]]].
      * steps.
        erewrite bind_Ret
          by (apply (leftmost_loop_spec h rt r); [done|done|simpl in *; lia]).
        rewrite Hq, Hm. cbv beta iota. step.
        assert (Hval :
          (if ref_eqb (left pn) (Some a)
           then let* rv := get_val (Some m) in set_val (left pn) rv
           else let* pr := get_right (Some pa) in
                let* rv := get_val (Some m) in set_val pr rv)
            (mkStore h rt)
          = (Ret (), mkStore h1 rt)).
        { unfold ref_eqb. case_bool_decide as E.
          - rewrite E. step. exact (set_val_eq _ _ _ _ Ha _).
          - destruct Hslot as [?|Hslot]; [done|]. step. rewrite Hslot. step.
            exact (set_val_eq _ _ _ _ Ha _). }
        rewrite (bind_Ret _ _ _ _ _ Hval).
        assert (Hm1 : h1 !! m = Some (mkNode (JNum mv) None (ptr (right_of (leftmost r)))))
          by (unfold h1; by rewrite lookup_insert_ne).
        step.
        assert (Hrr' : ∀ rr' : ref,
          (if negb (is_null rr') then set_left (Some q) rr'
           else set_left (Some q) None) = set_left (Some q) rr')
          by (by intros [?|]).
        rewrite Hrr'. exact (set_left_eq _ _ _ _ Hnq _).
      * unfold h2, h1. rewrite !lookup_insert_ne by done.
        by rewrite relink_same.
      * apply shape_Br.
        -- unfold h2, h1. rewrite lookup_insert_ne by done.
           rewrite lookup_insert_eq. by rewrite del_leftmost_ptr.
        -- eapply shape_agree; [exact Hl|]. intros u Hu'. unfold h2, h1.
           rewrite !lookup_insert_ne; [done| |].
           ++ by intros <-.
           ++ intros <-. by apply (Hlr q).
        -- done.
      * intros u Hu' Hupa.
        assert (q ≠ u) by (intros <-; apply Hu'; by apply addrs_right).
        assert (a ≠ u) by (intros <-; apply Hu'; apply addrs_root).
        unfold h2, h1. by rewrite !lookup_insert_ne by done.
      * intros Hd. discriminate Hd.
Qed.

Lemma ptr_addrs t c : ptr t = Some c → c ∈ addrs t.
Proof. destruct t; [done|]. intros [= ->]. set_solver. Qed.

Lemma on_path_nonleaf v t : on_path v t = true → t ≠ Leaf.
Proof. by destruct t. Qed.

(** Removal below a node [pa] of the tree: [t] hangs from one of the links
    of [pa]. *)
Lemma remove_below t :
  ∀ h rt v pa pn fuel,
    on_path v t = true →
    h !! pa = Some pn → left pn = ptr t ∨ right pn = ptr t →
    shape h t → unshared t → pa ∉ addrs t → (height t ≤ fuel)%nat →
    ∃ h',
      remove_node fuel (found_node v t) (found_parent v (Some pa) t)
        (mkStore h rt) = (Ret (), mkStore h' rt) ∧
      h' !! pa = Some (relink pn (ptr t) (ptr (tremove v t))) ∧
      shape h' (tremove v t) ∧
      (∀ z, z ∉ addrs t → z ≠ pa → h' !! z = h !! z) ∧
      (copies_value (found_tree v t) = false →
       ∀ n, found_node v t = Some n → h' !! n = h !! n).
Proof.
  induction t as [|a l IHl x r IHr];
    intros h rt v pa pn fuel Hp Hpa Hslot Hs Hu Hpat Hf; [done|].
  cbn [on_path found_node found_parent found_tree tremove] in *.
  case_bool_decide as Hx.
  { destruct (remove_node_spec h rt pa pn a l x r fuel)
      as (h' & Hrun & Hpa' & Hsh & Hfrm & Hkeep); auto.
    exists h'. split_and!; auto. by intros Hd n [= <-]; auto. }
  destruct Hs as (Ha & Hl & Hr).
  destruct (unshared_inv _ _ _ _ Hu) as (Hul & Hur & Hal & Har & Hlr).
  assert (Hpaa : pa ≠ a) by (intros ->; apply Hpat; in_addrs).
  assert (Hpal : pa ∉ addrs l) by (intros ?; apply Hpat; in_addrs).
  assert (Hpar : pa ∉ addrs r) by (intros ?; apply Hpat; in_addrs).
  simpl in Hf.
  destruct (v <? x).
  - destruct (IHl h rt v a _ fuel Hp Ha) as (h' & Hrun & Ha' & Hsh & Hfrm & Hkeep);
      [by left|done|done|done|lia|].
    exists h'. split; [exact Hrun|]. split; [|split; [|split; [|done]]].
    + rewrite Hfrm by done. cbn [ptr]. by rewrite relink_same.
    + apply shape_Br.
      * rewrite Ha'. unfold relink. cbn [left val right].
        by rewrite bool_decide_true.
      * done.
      * eapply shape_agree; [exact Hr|]. intros u Hu'. apply Hfrm.
        -- intros Hul'. by apply (Hlr u).
        -- by intros ->.
    + intros u Hu' Hupa. apply Hfrm; [intros ?; apply Hu'; in_addrs|]. intros ->. apply Hu'. in_addrs.
  - destruct (IHr h rt v a _ fuel Hp Ha) as (h' & Hrun & Ha' & Hsh & Hfrm & Hkeep);
      [by right|done|done|done|lia|].
    exists h'. split; [exact Hrun|]. split; [|split; [|split; [|done]]].
    + rewrite Hfrm by done. cbn [ptr]. by rewrite relink_same.
    + apply shape_Br.
      * rewrite Ha'. unfold relink. cbn [left val right].
        rewrite bool_decide_false; [done|].
        intros Heq. apply on_path_nonleaf in Hp.
        destruct r as [|c rl z rr]; [done|].
        apply ptr_addrs in Heq. apply (Hlr c Heq). in_addrs.
      * eapply shape_agree; [exact Hl|]. intros u Hu'. apply Hfrm.
        -- by apply Hlr.
        -- by intros ->.
      * done.
    + intros u Hu' Hupa. apply Hfrm; [intros ?; apply Hu'; in_addrs|]. intros ->. apply Hu'. in_addrs.
Qed.

Lemma found_node_below v a l x r :
  x ≠ v → on_path v (Br a l x r) = true → unshared (Br a l x r) →
  found_node v (Br a l x r) ≠ Some a.
Proof.
  intros Hx Hp Hu.
  destruct (unshared_inv _ _ _ _ Hu) as (Hul & Hur & Hal & Har & Hlr).
  simpl in *. rewrite bool_decide_false in * by done.
  destruct (v <? x).
  - destruct (found_node_addrs _ _ Hp) as (c & -> & Hc). by intros [= ->].
  - destruct (found_node_addrs _ _ Hp) as (c & -> & Hc). by intros [= ->].
Qed.

(** [remove] of a value on the comparison path. *)
Lemma remove_found_node s t v fuel :
  repr s t → unshared t → on_path v t = true → (height t < fuel)%nat →
  ∃ s',
    remove fuel v s = (Ret (found_node v t), s') ∧ repr s' (tremove v t) ∧
    (copies_value (found_tree v t) = false →
     ∀ n, found_node v t = Some n → heap s' !! n = heap s !! n).
Proof.
  destruct s as [h rt]. intros [Hrt Hs] Hu Hp Hf. simpl in Hrt. subst rt.
  cbn [heap] in Hs.
  destruct t as [|a l x r]; [done|].
  pose proof (remove_search_spec h (Some a) v _ Hs fuel None Hf) as Hsearch.
  destruct (found_node_addrs _ _ Hp) as (n & Hn & Hnin).
  rewrite Hp, Hn in Hsearch. rewrite Hn.
  remember (tremove v (Br a l x r)) as t' eqn:Et'.
  remember (found_tree v (Br a l x r)) as ft eqn:Eft.
  unfold remove. step.
  erewrite bind_Ret by exact Hsearch. cbv beta iota.
  cbn [truthy negb]. step.
  destruct (decide (x = v)) as [Hx|Hx].
  - (* the root is removed, below a temporary node *)
    assert (n = a) as -> by (simpl in Hn; rewrite bool_decide_true in Hn by done;
                            congruence).
    unfold ref_eqb at 1. rewrite bool_decide_true by done.
    set (tmp := fresh (dom h)).
    set (h1 := <[tmp := mkNode JNull (Some a) None]> h).
    assert (Htemp :
      (let* tempRoot := new_Node JNull in
       let* r := get_root in
       set_left tempRoot r;;;
       let* r := get_root in
       ret (r, tempRoot)) (mkStore h (Some a))
      = (Ret (Some a, Some tmp), mkStore h1 (Some a))).
    { steps. unfold h1, tmp. by rewrite insert_insert_eq. }
    erewrite bind_Ret by exact Htemp. cbv beta iota.
    assert (Htmp : tmp ∉ addrs (Br a l x r)) by (by apply shape_fresh).
    assert (Hs1 : shape h1 (Br a l x r)).
    { eapply shape_agree; [exact Hs|]. intros u Hu'. unfold h1.
      rewrite lookup_insert_ne; [done|]. by intros <-. }
    destruct (remove_node_spec h1 (Some a) tmp (mkNode JNull (Some a) None)
                a l x r fuel) as (h' & Hrun & Htmp' & Hsh & Hfrm & Hkeep);
      [by apply lookup_insert_eq|by left|done|done|done|lia|].
    erewrite bind_Ret by exact Hrun. cbv beta. step.
    unfold ref_eqb. rewrite bool_decide_true by done.
    rewrite bind_assoc. step. step.
    cbn [tremove] in Et'. rewrite bool_decide_true in Et' by done. subst t'.
    cbn [found_tree] in Eft. rewrite bool_decide_true in Eft by done. subst ft.
    eexists. split; [reflexivity|]. split; [split; [|done]|].
    + unfold relink. cbn [left]. by rewrite bool_decide_true.
    + intros Hd n [= <-]. cbn [heap]. rewrite Hkeep by done.
      unfold h1. rewrite lookup_insert_ne; [done|].
      intros Heq. apply Htmp. rewrite Heq. apply addrs_root.
  - (* a node below the root is removed *)
    pose proof (found_node_below v a l x r Hx Hp Hu) as Hna.
    rewrite Hn in Hna.
    unfold ref_eqb at 1. rewrite bool_decide_false by done.
    step.
    destruct Hs as (Ha & Hl & Hr).
    destruct (unshared_inv _ _ _ _ Hu) as (Hul & Hur & Hal & Har & Hlr).
    cbn [on_path found_node found_parent found_tree tremove] in *.
    rewrite bool_decide_false in * by done.
    simpl in Hf.
    destruct (v <? x); subst t' ft.
    + destruct (remove_below l h (Some a) v a _ fuel Hp Ha)
        as (h' & Hrun & Ha' & Hsh & Hfrm & Hkeep); [by left|done|done|done|lia|].
      rewrite Hn in Hrun. erewrite bind_Ret by exact Hrun. cbv beta. step.
      unfold ref_eqb. rewrite bool_decide_false by congruence. step.
      eexists. split; [reflexivity|].
      split; [|by intros Hd n' [= <-]; apply Hkeep].
      split; [done|]. cbn [heap].
      apply shape_Br.
      * rewrite Ha'. unfold relink. cbn [left val right].
        by rewrite bool_decide_true.
      * done.
      * eapply shape_agree; [exact Hr|]. intros u Hu'. apply Hfrm.
        -- intros Hul'. by apply (Hlr u).
        -- by intros ->.
    + destruct (remove_below r h (Some a) v a _ fuel Hp Ha)
        as (h' & Hrun & Ha' & Hsh & Hfrm & Hkeep); [by right|done|done|done|lia|].
      rewrite Hn in Hrun. erewrite bind_Ret by exact Hrun. cbv beta. step.
      unfold ref_eqb. rewrite bool_decide_false by congruence. step.
      eexists. split; [reflexivity|].
      split; [|by intros Hd n' [= <-]; apply Hkeep].
      split; [done|]. cbn [heap].
      apply shape_Br.
      * rewrite Ha'. unfold relink. cbn [left val right].
        rewrite bool_decide_false; [done|].
        intros Heq. apply on_path_nonleaf in Hp.
        destruct r as [|c rl z rr]; [done|].
        apply ptr_addrs in Heq. apply (Hlr c Heq). in_addrs.
      * eapply shape_agree; [exact Hl|]. intros u Hu'. apply Hfrm.
        -- by apply Hlr.
        -- by intros ->.
      * done.
Qed.

Lemma remove_found s t v fuel :
  repr s t → unshared t → on_path v t = true → (height t < fuel)%nat →
  ∃ s', remove fuel v s = (Ret (found_node v t), s') ∧ repr s' (tremove v t).
Proof.
  intros Hrepr Hu Hp Hf.
  destruct (remove_found_node s t v fuel) as (s' & ? & ? & _); eauto.
Qed.

(** *** The node that [remove] returns *)

Lemma subtree_addrs n l x r t : subtree (Br n l x r) t → n ∈ addrs t.
Proof.
  induction t as [|a tl IHl y tr IHr]; cbn [subtree].
  - by intros [?|[]].
  - intros [[= -> -> -> ->]|[H|H]].
    + apply addrs_root.
    + apply addrs_left, IHl, H.
    + apply addrs_right, IHr, H.
Qed.

Lemma subtree_lookup h n l x r t :
  shape h t → subtree (Br n l x r) t →
  h !! n = Some (mkNode (JNum x) (ptr l) (ptr r)).
Proof. intros Hs Hsub. by destruct (subtree_shape h _ _ Hsub Hs). Qed.

Lemma found_tree_subtree v t : subtree (found_tree v t) t.
Proof.
  induction t as [|a l IHl x r IHr]; simpl; [by left|].
  case_bool_decide; [by left|]. destruct (v <? x); auto.
Qed.

Lemma found_tree_root v t n :
  on_path v t = true → found_node v t = Some n →
  ∃ l r, found_tree v t = Br n l v r.
Proof.
  induction t as [|a l IHl x r IHr]; [done|]. simpl.
  case_bool_decide as Hx.
  - intros _ [= <-]. subst x. eauto.
  - destruct (v <? x); auto.
Qed.

(** Outside the value-copying branch the node found is unlinked. *)
Lemma tremove_detaches v t n :
  unshared t → on_path v t = true → copies_value (found_tree v t) = false →
  found_node v t = Some n → n ∉ addrs (tremove v t).
Proof.
  induction t as [|a l IHl x r IHr]; [done|].
  intros Hu Hp Hc Hn.
  destruct (unshared_inv _ _ _ _ Hu) as (Hul & Hur & Hal & Har & Hlr).
  cbn [on_path found_tree found_node tremove] in *.
  case_bool_decide as Hx.
  - injection Hn as <-. intros Hin.
    destruct l as [|b ll y lr], r as [|c rl z rr].
    + by apply elem_of_nil in Hin.
    + by apply Har.
    + by apply Hal.
    + destruct rl as [|d rll w rlr]; [|done].
      change (del_root (Br a (Br b ll y lr) x (Br c Leaf z rr)))
        with (Br c (Br b ll y lr) z rr) in Hin.
      cbn [addrs] in Hin.
      apply elem_of_app in Hin as [Hin|Hin]; [done|].
      apply elem_of_cons in Hin as [->|Hin]; apply Har; in_addrs.
  - destruct (found_node_addrs v (if v <? x then l else r)) as (n' & Hn' & Hin').
    { by destruct (v <? x). }
    assert (Hna : n ≠ a).
    { intros ->. destruct (v <? x); rewrite Hn in Hn'; injection Hn' as <-; done. }
    destruct (v <? x); rewrite Hn in Hn'; injection Hn' as <-; cbn [addrs].
    + intros [Hin|Hin]%elem_of_app; [by apply (IHl Hul Hp Hc Hn)|].
      apply elem_of_cons in Hin as [?|Hin]; [done|]. by apply (Hlr n).
    + intros [Hin|Hin]%elem_of_app; [by apply (Hlr n)|].
      apply elem_of_cons in Hin as [?|Hin]; [done|]. by apply (IHr Hur Hp Hc Hn).
Qed.

(** In the value-copying branch the node found stays where it was and
    takes the value of the leftmost node of its right subtree. *)
Lemma tremove_copies v t n :
  on_path v t = true → copies_value (found_tree v t) = true →
  found_node v t = Some n →
  ∃ l r,
    subtree (Br n l (value_of (leftmost (right_of (found_tree v t)))) r)
            (tremove v t).
Proof.
  induction t as [|a l IHl x r IHr]; [done|].
  cbn [on_path found_tree found_node tremove]. case_bool_decide as Hx.
  - intros _ Hc [= <-].
    destruct l as [|b ll y lr], r as [|c [|d rll w rlr] z rr]; try done.
    eexists _, _. left. reflexivity.
  - destruct (v <? x); intros Hp Hc Hn.
    + destruct (IHl Hp Hc Hn) as (l' & r' & Hsub).
      exists l', r'. simpl. auto.
    + destruct (IHr Hp Hc Hn) as (l' & r' & Hsub).
      exists l', r'. simpl. auto.
Qed.

(** What [remove] returns for a value on the comparison path: outside the
    value-copying branch, the node that held the value, unlinked from the
    tree and unchanged; in the value-copying branch, a node that is still
    in the tree and now holds the value of its successor. *)
Lemma remove_returned_node s t v fuel :
  repr s t → unshared t → on_path v t = true → (height t < fuel)%nat →
  ∃ n s',
    remove fuel v s = (Ret (Some n), s') ∧ repr s' (tremove v t) ∧
    if copies_value (found_tree v t)
    then n ∈ addrs (tremove v t) ∧
         val <$> heap s' !! n
         = Some (JNum (value_of (leftmost (right_of (found_tree v t)))))
    else (n ∉ addrs (tremove v t)) ∧ val <$> heap s' !! n = Some (JNum v).
Proof.
  intros Hrepr Hu Hp Hf.
  destruct (remove_found_node s t v fuel) as (s' & Hrun & Hrepr' & Hkeep); auto.
  destruct (found_node_addrs v t Hp) as (n & Hn & Hin).
  rewrite Hn in Hrun. exists n, s'. split; [exact Hrun|]. split; [exact Hrepr'|].
  destruct (copies_value (found_tree v t)) eqn:Hc.
  - destruct (tremove_copies v t n Hp Hc Hn) as (l' & r' & Hsub).
    split; [by eapply subtree_addrs|].
    destruct Hrepr' as [_ Hs']. by rewrite (subtree_lookup _ _ _ _ _ _ Hs' Hsub).
  - split; [by apply tremove_detaches|].
    rewrite (Hkeep eq_refl n Hn).
    destruct (found_tree_root v t n Hp Hn) as (l' & r' & Hft).
    pose proof (found_tree_subtree v t) as Hsub. rewrite Hft in Hsub.
    destruct Hrepr as [_ Hs]. by rewrite (subtree_lookup _ _ _ _ _ _ Hs Hsub).
Qed.

(** [remove] of a value that the comparison path does not meet: the search
    runs off the tree and reads a property of [null]. *)
Lemma remove_absent s t v fuel :
  repr s t → on_path v t = false → (height t < fuel)%nat →
  remove fuel v s = (TypeError, s).
Proof.
  destruct s as [h rt]. intros [Hrt Hs] Hp Hf. simpl in *. subst rt.
  unfold remove. step.
  erewrite bind_TypeError; [done|].
  by rewrite remove_search_spec, Hp.
Qed.

Lemma on_path_absent v t : v ∉ inorder t → on_path v t = false.
Proof.
  induction t as [|a l IHl x r IHr]; [done|]. simpl. intros Hv.
  rewrite bool_decide_false by set_solver.
  destruct (v <? x); [apply IHl|apply IHr]; set_solver.
Qed.

Lemma on_path_present v t : bst_le t → v ∈ inorder t → on_path v t = true.
Proof.
  induction t as [|a l IHl x r IHr]; simpl.
  { intros _ Hv. by apply elem_of_nil in Hv. }
  intros (Hfl & Hfr & Hbl & Hbr) Hv. rewrite Forall_forall in Hfl, Hfr.
  case_bool_decide as Hx; [done|].
  apply elem_of_app in Hv as [Hv|Hv].
  - pose proof (Hfl _ Hv). assert ((v <? x) = true) as -> by lia. auto.
  - apply elem_of_cons in Hv as [?|Hv]; [congruence|].
    pose proof (Hfr _ Hv). assert ((v <? x) = false) as -> by lia. auto.
Qed.

(** ** Sequences of insertions *)

Lemma insert_all_mono n m vs :
  (n ≤ m)%nat → ∀ s s', insert_all n vs s = Some s' → insert_all m vs s = Some s'.
Proof.
  intros Hnm. induction vs as [|v vs IH]; intros s s'; simpl; [done|].
  destruct (insert n v s) as [[[]| |] s1] eqn:E; try done.
  rewrite (insert_mono n m v Hnm _ _ _ E I). apply IH.
Qed.

Lemma repr_empty : repr empty_tree Leaf.
Proof. done. Qed.

Lemma repr_fresh s t : repr s t → fresh (dom (heap s)) ∉ addrs t.
Proof. intros [_ Hs]. by apply shape_fresh. Qed.

(** The loop of [insert] never returns on a value that an ordered tree
    already holds: at the node holding it neither comparison succeeds and
    the loop goes round with the same node. *)
Lemma insert_present_diverges s t v :
  repr s t → bst_le t → v ∈ inorder t →
  ∀ fuel, insert fuel v s = (OutOfFuel, s).
Proof.
  destruct s as [h rt]. intros [Hrt Hs] Hb Hv fuel. simpl in *. subst rt.
  unfold insert. step. destruct t as [|a l x r].
  { by apply elem_of_nil in Hv. }
  change (is_null (ptr (Br a l x r))) with false. cbv iota.
  by apply (insert_loop_present (Br a l x r)).
Qed.

(** Both methods do the same on a value that the tree does not hold. *)
Lemma insert_insertRecursively s t v fuel :
  repr s t → unshared t → v ∉ inorder t →
  (height t ≤ fuel)%nat → (0 < fuel)%nat →
  ∃ s',
    insert fuel v s = (Ret this, s') ∧
    insertRecursively fuel v s = (Ret this, s') ∧
    repr s' (tinsert (fresh (dom (heap s))) v t).
Proof.
  intros Hrepr Hu Hv Hf Hf'.
  destruct (insertRecursively_spec s t v fuel) as (s' & Hrun & Hrepr'); auto.
  exists s'. split_and!; auto.
  destruct s as [h rt]. destruct Hrepr as [Hrt Hs]. simpl in *. subst rt.
  rewrite <- Hrun. unfold insert, insertRecursively. steps.
  destruct t as [|a l x r].
  - destruct fuel as [|fuel]; [lia|]. by simpl; steps.
  - change (is_null (ptr (Br a l x r))) with false. cbv iota.
    by apply insert_loop_absent.
Qed.

Lemma tinsert_height a v t : (height (tinsert a v t) ≤ S (height t))%nat.
Proof.
  induction t as [|b l IHl x r IHr]; simpl; [lia|].
  destruct (v <? x); simpl; lia.
Qed.

Lemma insert_all_agree vs :
  ∀ s t fuel,
    repr s t → unshared t → NoDup vs → (∀ v, v ∈ vs → v ∉ inorder t) →
    (height t + length vs ≤ fuel)%nat → (0 < fuel)%nat →
    ∃ s' t',
      insert_all fuel vs s = Some s' ∧
      insertRecursively_all fuel vs s = Some s' ∧
      repr s' t' ∧ unshared t' ∧ inorder t' ≡ₚ vs ++ inorder t.
Proof.
  induction vs as [|v vs IH]; intros s t fuel Hrepr Hu Hnd Hfresh Hf Hf'.
  { exists s, t. by split_and!. }
  apply NoDup_cons in Hnd as [Hv Hnd]. simpl in Hf.
  destruct (insert_insertRecursively s t v fuel) as (s1 & Hi & Hr & Hrepr1);
    auto; [apply Hfresh; by left|lia|].
  set (t1 := tinsert (fresh (dom (heap s))) v t) in *.
  assert (Ht1 : inorder t1 ≡ₚ v :: inorder t) by apply tinsert_inorder.
  destruct (IH s1 t1 fuel) as (s' & t' & Hi' & Hr' & Hrepr' & Hu' & Hperm); auto.
  - apply tinsert_unshared; [done|by apply repr_fresh].
  - intros w Hw. rewrite Ht1. intros [->|Hin]%elem_of_cons; [done|].
    apply (Hfresh w); [by right|done].
  - pose proof (tinsert_height (fresh (dom (heap s))) v t). fold t1 in H. lia.
  - exists s', t'. simpl. rewrite Hi, Hr. split_and!; auto.
    rewrite Hperm, Ht1. by rewrite <- Permutation_middle.
Qed.

(** ** The properties of the specification, C1 to C10 *)

(** C1 (as stated, refuted).  The strict ordering does not survive every
    sequence of calls: [insertRecursively(5)] twice on the empty tree gives a
    root holding 5 whose right child holds 5 as well. *)
Lemma strict_order_counterexample :
  ¬ (∀ s, reachable s → ∀ t, repr s t → bst t).
Proof.
  intros H.
  assert (∃ s, reachable s ∧
               repr s (Br 1%positive Leaf 5 (Br 2%positive Leaf 5 Leaf)))
    as (s & Hreach & Hrepr).
  { eexists. split.
    - eapply (reach_insertRecursively _ 2 5).
      + eapply (reach_insertRecursively empty_tree 1 5); [apply reach_empty|].
        vm_compute. reflexivity.
      + vm_compute. reflexivity.
    - by vm_compute. }
  destruct (H s Hreach _ Hrepr) as (_ & Hr & _).
  apply Forall_cons in Hr as [Hr _]. lia.
Qed.

(** C1 (amended).  Every tree obtained from the empty tree by calls of
    [insert], [insertRecursively] and [remove] that come back is a tree in
    the store (no node shared) in which, at every node, the values of the
    left subtree are strictly smaller and the values of the right subtree
    are greater or equal. *)
Theorem reachable_ordered s :
  reachable s → ∃ t, repr s t ∧ unshared t ∧ bst_le t.
Proof.
  induction 1 as [|s fuel v s' _ (t & Hr & Hu & Hb) Hrun
                  |s fuel v s' _ (t & Hr & Hu & Hb) Hrun
                  |s fuel v o s' _ (t & Hr & Hu & Hb) Hrun Hfin].
  - exists Leaf. split; [apply repr_empty|]. split; [apply NoDup_nil_2|done].
  - apply (insert_returns s t) in Hrun; [|done].
    destruct (insertRecursively_spec s t v (S fuel `max` height t))
      as (s1 & Hrun1 & Hr1); [done|done|lia|lia|].
    pose proof (insertRecursively_mono (S fuel) (S fuel `max` height t) v
                  ltac:(lia) _ _ _ Hrun I) as Hrun'.
    rewrite Hrun1 in Hrun'. injection Hrun' as <-.
    eexists. split; [exact Hr1|].
    split; [apply tinsert_unshared; [done|by apply repr_fresh]|].
    by apply tinsert_bst_le.
  - destruct (insertRecursively_spec s t v (S fuel `max` height t))
      as (s1 & Hrun1 & Hr1); [done|done|lia|lia|].
    pose proof (insertRecursively_mono fuel (S fuel `max` height t) v
                  ltac:(lia) _ _ _ Hrun I) as Hrun'.
    rewrite Hrun1 in Hrun'. injection Hrun' as <-.
    eexists. split; [exact Hr1|].
    split; [apply tinsert_unshared; [done|by apply repr_fresh]|].
    by apply tinsert_bst_le.
  - pose proof (remove_mono fuel (fuel `max` S (height t)) v
                  ltac:(lia) _ _ _ Hrun Hfin) as Hrun'.
    clear Hrun. rename Hrun' into Hrun.
    destruct (on_path v t) eqn:Hp.
    + destruct (remove_found s t v (fuel `max` S (height t)))
        as (s1 & Hrun1 & Hr1); [done|done|done|lia|].
      rewrite Hrun1 in Hrun. injection Hrun as _ <-.
      exists (tremove v t). auto using tremove_unshared, tremove_bst_le.
    + rewrite (remove_absent s t) in Hrun; [|done|done|lia].
      injection Hrun as _ <-. eauto.
Qed.

(** C1 (amended), at the tree obtained by [insertRecursively(5)]. *)
Lemma reachable_ordered_witness :
  reachable (insertRecursively 1 5 empty_tree).2 ∧
  ∃ t, repr (insertRecursively 1 5 empty_tree).2 t ∧ unshared t ∧ bst_le t.
Proof.
  assert (reachable (insertRecursively 1 5 empty_tree).2) as Hreach.
  { eapply (reach_insertRecursively empty_tree 1 5); [apply reach_empty|].
    reflexivity. }
  split; [exact Hreach|]. exact (reachable_ordered _ Hreach).
Defined.

(** C2.  On every tree, for every fuel above the number of nodes,
    [dfsInOrderIterative] and [dfsInOrder] return the same sequence (the
    in-order sequence of the tree) and leave the store as it was. *)
Theorem dfsInOrderIterative_dfsInOrder s t :
  repr s t →
  ∀ fuel, (tsize t < fuel)%nat →
    dfsInOrder fuel s = (Ret (map JNum (inorder t)), s) ∧
    dfsInOrderIterative fuel s = dfsInOrder fuel s.
Proof.
  intros Hrepr fuel Hf. pose proof (height_le_tsize t).
  rewrite (dfsInOrder_spec s t), (dfsInOrderIterative_spec s t) by (done || lia).
  done.
Qed.

(** C2, at the tree with the single value 5. *)
Lemma dfsInOrderIterative_dfsInOrder_witness :
  let s := mkStore {[1%positive := mkNode (JNum 5) None None]} (Some 1%positive) in
  let t := Br 1%positive Leaf 5 Leaf in
  repr s t ∧ (tsize t < 2)%nat ∧
  dfsInOrder 2 s = (Ret (map JNum (inorder t)), s) ∧
  dfsInOrderIterative 2 s = dfsInOrder 2 s.
Proof.
  intros s t.
  assert (Hrepr : repr s t) by (split; [reflexivity|by repeat split]).
  assert (Hf : (tsize t < 2)%nat) by (simpl; lia).
  split; [exact Hrepr|]. split; [exact Hf|].
  exact (dfsInOrderIterative_dfsInOrder s t Hrepr 2%nat Hf).
Defined.

(** C3 (the code breaks it).  [remove] of a value that is not in the tree
    throws a [TypeError]: the search loop runs off the tree and reads
    [nodeToRemove.val] on [null]; the test [if (!nodeToRemove) return null]
    after the loop is never reached.  On the empty tree, and on the tree
    built from [5,3,8,1,4,7,9] for the absent value 6; the store is left
    unchanged.  (For every tree and every value that the comparison path
    does not meet: lemma [remove_absent].) *)
Theorem remove_absent_throws :
  (∀ fuel v, remove (S fuel) v empty_tree = (TypeError, empty_tree)) ∧
  (∀ k, ∃ s, insert_all (4 + k) [5;3;8;1;4;7;9] empty_tree = Some s ∧
             remove (4 + k) 6 s = (TypeError, s)).
Proof.
  split.
  - intros fuel v. apply (remove_absent _ Leaf); [apply repr_empty|done|simpl; lia].
  - intros k.
    destruct (insert_all 4 [5;3;8;1;4;7;9] empty_tree) as [s|] eqn:E;
      [|by vm_compute in E].
    exists s. split; [eapply (insert_all_mono 4); [lia|exact E]|].
    vm_compute in E. injection E as <-.
    apply (remove_absent _
      (Br 1%positive
         (Br 2%positive (Br 4%positive Leaf 1 Leaf) 3 (Br 5%positive Leaf 4 Leaf))
         5
         (Br 3%positive (Br 6%positive Leaf 7 Leaf) 8 (Br 7%positive Leaf 9 Leaf))));
      [by vm_compute|done|simpl; lia].
Qed.

(** C4 (as stated, refuted).  On the tree that holds only 5, no call
    [insertRecursively(5)] returns with the tree unchanged: it returns with a
    second node.  (And no call [insert(5)] returns at all.) *)
Lemma duplicate_insert_counterexample :
  ¬ (∀ s t v, repr s t → unshared t → v ∈ inorder t →
       (∃ fuel, insert fuel v s = (Ret this, s)) ∧
       (∃ fuel, insertRecursively fuel v s = (Ret this, s))).
Proof.
  intros H.
  set (s := mkStore {[1%positive := mkNode (JNum 5) None None]} (Some 1%positive)).
  assert (Hrepr : repr s (Br 1%positive Leaf 5 Leaf))
    by (split; [reflexivity|by repeat split]).
  destruct (H s _ 5 Hrepr) as [_ [fuel Hrun]];
    [apply NoDup_singleton|simpl; left|].
  pose proof (insertRecursively_mono fuel (fuel `max` 2) 5 ltac:(lia) _ _ _ Hrun I)
    as Hrun'.
  destruct (insertRecursively_spec s _ 5 (fuel `max` 2) Hrepr)
    as (s' & Hrun'' & _ & Hshape); [apply NoDup_singleton|simpl; lia|lia|].
  rewrite Hrun' in Hrun''. injection Hrun'' as <-.
  destruct Hshape as (_ & _ & Hnew & _). by vm_compute in Hnew.
Qed.

(** C4 (amended).  On every tree and for every value [v] already in it,
    [insertRecursively(v)] terminates and returns the tree, with one more
    node: a new node holding [v], placed at the first empty slot of the
    comparison path, on which a value that is not smaller goes right.  The
    tree then holds [v] once more than before. *)
Theorem insertRecursively_duplicate s t v :
  repr s t → unshared t → v ∈ inorder t →
  ∀ fuel, (height t ≤ fuel)%nat →
  ∃ s',
    insertRecursively fuel v s = (Ret this, s') ∧
    repr s' (tinsert (fresh (dom (heap s))) v t) ∧
    unshared (tinsert (fresh (dom (heap s))) v t) ∧
    inorder (tinsert (fresh (dom (heap s))) v t) ≡ₚ v :: inorder t.
Proof.
  intros Hrepr Hu Hv fuel Hf.
  assert (0 < fuel)%nat.
  { destruct t; [by apply elem_of_nil in Hv|simpl in Hf; lia]. }
  destruct (insertRecursively_spec s t v fuel) as (s' & Hrun & Hrepr'); auto.
  exists s'. split_and!; auto using tinsert_inorder.
  apply tinsert_unshared; [done|by apply repr_fresh].
Qed.

(** C4 (amended), at the tree with the single value 5 and [v = 5]. *)
Lemma insertRecursively_duplicate_witness :
  let s := mkStore {[1%positive := mkNode (JNum 5) None None]} (Some 1%positive) in
  let t := Br 1%positive Leaf 5 Leaf in
  repr s t ∧ unshared t ∧ 5 ∈ inorder t ∧ (height t ≤ 1)%nat ∧
  ∃ s',
    insertRecursively 1 5 s = (Ret this, s') ∧
    repr s' (tinsert (fresh (dom (heap s))) 5 t) ∧
    unshared (tinsert (fresh (dom (heap s))) 5 t) ∧
    inorder (tinsert (fresh (dom (heap s))) 5 t) ≡ₚ 5 :: inorder t.
Proof.
  intros s t.
  assert (Hrepr : repr s t) by (split; [reflexivity|by repeat split]).
  assert (Hu : unshared t) by apply NoDup_singleton.
  assert (Hv : 5 ∈ inorder t) by (simpl; left).
  assert (Hf : (height t ≤ 1)%nat) by (simpl; lia).
  split; [exact Hrepr|]. split; [exact Hu|]. split; [exact Hv|].
  split; [exact Hf|].
  exact (insertRecursively_duplicate s t 5 Hrepr Hu Hv 1%nat Hf).
Defined.

(** C5 (as stated, refuted).  For the sequence [5, 5] the two methods do not
    produce the same tree: the second [insert(5)] never returns. *)
Lemma insert_variants_counterexample :
  ¬ (∀ vs, ∃ s,
       (∃ fuel, insert_all fuel vs empty_tree = Some s) ∧
       (∃ fuel, insertRecursively_all fuel vs empty_tree = Some s)).
Proof.
  intros H. destruct (H [5; 5]) as (s & [fuel Hi] & _).
  simpl in Hi.
  destruct (insert fuel 5 empty_tree) as [[[]| |] s1] eqn:E1; try done.
  assert (s1 = mkStore {[1%positive := mkNode (JNum 5) None None]} (Some 1%positive))
    as -> by (vm_compute in E1; by injection E1 as <-).
  assert (Hrepr : repr (mkStore {[1%positive := mkNode (JNum 5) None None]}
                                (Some 1%positive)) (Br 1%positive Leaf 5 Leaf))
    by (split; [reflexivity|by repeat split]).
  assert (Hb : bst_le (Br 1%positive Leaf 5 Leaf)) by (by repeat constructor).
  assert (Hv : 5 ∈ inorder (Br 1%positive Leaf 5 Leaf)) by (simpl; left).
  by rewrite (insert_present_diverges _ _ _ Hrepr Hb Hv) in Hi.
Qed.

(** C5 (amended).  For every finite sequence of pairwise distinct values,
    calling [insert] for each value on an empty tree and calling
    [insertRecursively] for each value on an empty tree end in the same
    store: the same nodes with the same values and links, a tree that holds
    exactly the values of the sequence. *)
Theorem insert_variants_agree vs :
  NoDup vs →
  ∀ fuel, (length vs ≤ fuel)%nat → (0 < fuel)%nat →
  ∃ s t,
    insert_all fuel vs empty_tree = Some s ∧
    insertRecursively_all fuel vs empty_tree = Some s ∧
    repr s t ∧ unshared t ∧ inorder t ≡ₚ vs.
Proof.
  intros Hnd fuel Hf Hf'.
  destruct (insert_all_agree vs empty_tree Leaf fuel)
    as (s & t & Hi & Hr & Hrepr & Hu & Hperm); auto.
  - apply repr_empty.
  - apply NoDup_nil_2.
  - intros v _. apply not_elem_of_nil.
  - exists s, t. rewrite app_nil_r in Hperm. by split_and!.
Qed.

(** C5 (amended), at the sequence 5, 3, 8. *)
Lemma insert_variants_agree_witness :
  NoDup [5; 3; 8] ∧ (length [5; 3; 8] ≤ 3)%nat ∧ (0 < 3)%nat ∧
  ∃ s t,
    insert_all 3 [5; 3; 8] empty_tree = Some s ∧
    insertRecursively_all 3 [5; 3; 8] empty_tree = Some s ∧
    repr s t ∧ unshared t ∧ inorder t ≡ₚ [5; 3; 8].
Proof.
  assert (Hnd : NoDup [5; 3; 8]) by (apply (bool_decide_unpack _); vm_compute; exact I).
  assert (Hf : (length [5; 3; 8] ≤ 3)%nat) by (simpl; lia).
  assert (Hf' : (0 < 3)%nat) by lia.
  split; [exact Hnd|]. split; [exact Hf|]. split; [exact Hf'|].
  exact (insert_variants_agree [5; 3; 8] Hnd 3%nat Hf Hf').
Defined.

(** C6 (the code breaks it, for [bfs]).  On the empty tree [find] returns
    [undefined] for every value and the four depth-first traversals return
    the empty sequence; [bfs] throws a [TypeError]: its queue starts as
    [[null]] and the first iteration reads [node.val] on [null]. *)
Theorem bfs_empty_throws :
  (∀ fuel v, find fuel v empty_tree = (Ret None, empty_tree)) ∧
  (∀ fuel v, findRecursively (S fuel) v empty_tree = (Ret None, empty_tree)) ∧
  (∀ fuel, dfsPreOrder (S fuel) empty_tree = (Ret [], empty_tree)) ∧
  (∀ fuel, dfsInOrder (S fuel) empty_tree = (Ret [], empty_tree)) ∧
  (∀ fuel, dfsPostOrder (S fuel) empty_tree = (Ret [], empty_tree)) ∧
  (∀ fuel, dfsInOrderIterative fuel empty_tree = (Ret [], empty_tree)) ∧
  (∀ fuel, bfs (S fuel) empty_tree = (TypeError, empty_tree)).
Proof.
  split_and!; try done.
  - intros fuel v. by destruct fuel.
  - intros fuel. by destruct fuel.
Qed.

(** C7.  On every tree that satisfies the (strict) ordering invariant,
    [dfsInOrder] returns the values of the tree, each node's value once,
    from left to right (the in-order sequence of the represented tree), and
    that sequence is in non-decreasing order; and [insert] of
    5, 3, 8, 1, 4, 7, 9 into the empty tree followed by [dfsInOrder] gives
    1, 3, 4, 5, 7, 8, 9. *)
Theorem dfsInOrder_sorted :
  (∀ s t, repr s t → bst t →
     ∀ fuel, (height t < fuel)%nat →
     dfsInOrder fuel s = (Ret (map JNum (inorder t)), s) ∧
     Sorted Z.le (inorder t) ∧
     length (inorder t) = tsize t) ∧
  (∀ k, ∃ s,
     insert_all (4 + k) [5; 3; 8; 1; 4; 7; 9] empty_tree = Some s ∧
     dfsInOrder (4 + k) s = (Ret (map JNum [1; 3; 4; 5; 7; 8; 9]), s)).
Proof.
  split.
  - intros s t Hrepr Hb fuel Hf.
    split; [by apply dfsInOrder_spec|]. split; [|apply inorder_length].
    by apply StronglySorted_Sorted, bst_le_sorted, bst_bst_le.
  - intros k.
    destruct (insert_all 4 [5; 3; 8; 1; 4; 7; 9] empty_tree) as [s|] eqn:E;
      [|by vm_compute in E].
    exists s. split; [eapply (insert_all_mono 4); [lia|exact E]|].
    vm_compute in E. injection E as <-.
    apply (dfsInOrder_spec _
      (Br 1%positive
         (Br 2%positive (Br 4%positive Leaf 1 Leaf) 3 (Br 5%positive Leaf 4 Leaf))
         5
         (Br 3%positive (Br 6%positive Leaf 7 Leaf) 8 (Br 7%positive Leaf 9 Leaf))));
      [by vm_compute|simpl; lia].
Qed.

(** C7, at the tree with the single value 5. *)
Lemma dfsInOrder_sorted_witness :
  let s := mkStore {[1%positive := mkNode (JNum 5) None None]} (Some 1%positive) in
  let t := Br 1%positive Leaf 5 Leaf in
  repr s t ∧ bst t ∧ (height t < 2)%nat ∧
  dfsInOrder 2 s = (Ret (map JNum (inorder t)), s) ∧
  Sorted Z.le (inorder t) ∧
  length (inorder t) = tsize t.
Proof.
  intros s t.
  assert (Hrepr : repr s t) by (split; [reflexivity|by repeat split]).
  assert (Hb : bst t) by (by repeat constructor).
  assert (Hf : (height t < 2)%nat) by (simpl; lia).
  split; [exact Hrepr|]. split; [exact Hb|]. split; [exact Hf|].
  exact (proj1 dfsInOrder_sorted s t Hrepr Hb 2%nat Hf).
Defined.

(** C8 (the code breaks it).  After [insert] of 5, 3, 8, 7, the node holding
    5 has two children and its right child 8 has a left child 7.
    [remove(5)] copies 7 into the node that held 5, unlinks the node that
    held 7, and returns the node that held 5: the node returned is still
    the root of the tree and its value is 7, not 5.  (In the other branches
    the node returned is unlinked and still holds the value asked for:
    lemma [remove_returned_node].) *)
Theorem remove_returns_node_in_tree :
  ∀ k, ∃ s,
    insert_all (4 + k) [5; 3; 8; 7] empty_tree = Some s ∧
    ∃ n s',
      remove (4 + k) 5 s = (Ret (Some n), s') ∧
      root s' = Some n ∧
      heap s' !! n = Some (mkNode (JNum 7) (Some 2%positive) (Some 3%positive)) ∧
      dfsInOrder (4 + k) s' = (Ret (map JNum [3; 7; 8]), s').
Proof.
  intros k.
  destruct (insert_all 4 [5; 3; 8; 7] empty_tree) as [s|] eqn:E;
    [|by vm_compute in E].
  exists s. split; [eapply (insert_all_mono 4); [lia|exact E]|].
  vm_compute in E. injection E as <-.
  set (t := Br 1%positive (Br 2%positive Leaf 3 Leaf) 5
               (Br 3%positive (Br 4%positive Leaf 7 Leaf) 8 Leaf)).
  assert (Hu : unshared t) by (apply (bool_decide_unpack _); by vm_compute).
  match goal with
  | |- ∃ n s', remove _ _ ?s = _ ∧ _ =>
      destruct (remove_found s t 5 (4 + k)) as (s' & Hrun & Hrepr);
        [by vm_compute|done|done|simpl; lia|]
  end.
  exists 1%positive, s'. split; [exact Hrun|].
  pose proof Hrepr as (Hroot & Hn & _).
  split; [exact Hroot|]. split; [exact Hn|].
  by apply (dfsInOrder_spec _ (tremove 5 t)); [|simpl; lia].
Qed.

(** C9.  [isBalanced(node)] returns [true] exactly when
    [maxDepth(n) - minDepth(n) <= 1] at every node [n] of the subtree of
    [node], where [maxDepth] and [minDepth] return the length of the longest
    and of the shortest path to an empty slot; the call without argument
    starts at the root; the empty tree is balanced; the tree built from
    1, 2, 3, 4, 5 is not balanced and the tree built from 3, 1, 5, 0, 2, 4, 6
    is. *)
Theorem isBalanced_correct :
  (∀ h rt t fuel,
     shape h t → (height t < fuel)%nat →
     let s := mkStore h rt in
     (∀ t', subtree t' t →
        maxDepth fuel (ptr t') s = (Ret (Z.of_nat (height t')), s) ∧
        minDepth fuel (ptr t') s = (Ret (Z.of_nat (min_height t')), s)) ∧
     ∃ b,
       isBalanced_from fuel (ptr t) s = (Ret b, s) ∧
       (b = true ↔
        ∀ t', subtree t' t →
          Z.of_nat (height t') - Z.of_nat (min_height t') ≤ 1)) ∧
  (∀ fuel s, isBalanced fuel s = isBalanced_from fuel (root s) s) ∧
  (∀ fuel, isBalanced fuel empty_tree = (Ret true, empty_tree)) ∧
  (∀ k, ∃ s,
     insert_all (6 + k) [1; 2; 3; 4; 5] empty_tree = Some s ∧
     isBalanced (6 + k) s = (Ret false, s)) ∧
  (∀ k, ∃ s,
     insert_all (4 + k) [3; 1; 5; 0; 2; 4; 6] empty_tree = Some s ∧
     isBalanced (4 + k) s = (Ret true, s)).
Proof.
  split_and!.
  - intros h rt t fuel Hs Hf s. split.
    + intros t' Hsub. pose proof (subtree_height _ _ Hsub).
      pose proof (subtree_shape h _ _ Hsub Hs).
      split; [apply maxDepth_spec|apply minDepth_spec]; done || lia.
    + eexists. split; [by apply isBalanced_from_spec|].
      rewrite Z.leb_le. apply balanced_subtrees.
  - done.
  - done.
  - intros k.
    destruct (insert_all 6 [1; 2; 3; 4; 5] empty_tree) as [s|] eqn:E;
      [|by vm_compute in E].
    exists s. split; [eapply (insert_all_mono 6); [lia|exact E]|].
    vm_compute in E. injection E as <-.
    unfold isBalanced. step.
    apply (isBalanced_from_spec _ _
      (Br 1%positive Leaf 1 (Br 2%positive Leaf 2 (Br 3%positive Leaf 3
         (Br 4%positive Leaf 4 (Br 5%positive Leaf 5 Leaf))))));
      [by vm_compute|simpl; lia].
  - intros k.
    destruct (insert_all 4 [3; 1; 5; 0; 2; 4; 6] empty_tree) as [s|] eqn:E;
      [|by vm_compute in E].
    exists s. split; [eapply (insert_all_mono 4); [lia|exact E]|].
    vm_compute in E. injection E as <-.
    unfold isBalanced. step.
    apply (isBalanced_from_spec _ _
      (Br 1%positive
         (Br 2%positive (Br 4%positive Leaf 0 Leaf) 1 (Br 5%positive Leaf 2 Leaf))
         3
         (Br 3%positive (Br 6%positive Leaf 4 Leaf) 5 (Br 7%positive Leaf 6 Leaf))));
      [by vm_compute|simpl; lia].
Qed.

(** C9, at the tree with the single value 5. *)
Lemma isBalanced_correct_witness :
  let h : gmap loc Node := {[1%positive := mkNode (JNum 5) None None]} in
  let t := Br 1%positive Leaf 5 Leaf in
  let s := mkStore h (Some 1%positive) in
  shape h t ∧ (height t < 2)%nat ∧
  (∀ t', subtree t' t →
     maxDepth 2 (ptr t') s = (Ret (Z.of_nat (height t')), s) ∧
     minDepth 2 (ptr t') s = (Ret (Z.of_nat (min_height t')), s)) ∧
  ∃ b,
    isBalanced_from 2 (ptr t) s = (Ret b, s) ∧
    (b = true ↔
     ∀ t', subtree t' t →
       Z.of_nat (height t') - Z.of_nat (min_height t') ≤ 1).
Proof.
  intros h t s.
  assert (Hs : shape h t) by (by repeat split).
  assert (Hf : (height t < 2)%nat) by (simpl; lia).
  split; [exact Hs|]. split; [exact Hf|].
  exact (proj1 isBalanced_correct h (Some 1%positive) t 2%nat Hs Hf).
Defined.

(** C10.  The methods that only read leave the store as it was, whatever
    the store, the arguments and the outcome: [find], [findRecursively],
    [dfsPreOrder], [dfsInOrder], [dfsPostOrder], [bfs],
    [dfsInOrderIterative], [isBalanced] and [findSecondHighest], each with
    and without its optional node argument. *)
Theorem readonly_methods :
  (∀ fuel v, readonly (find fuel v)) ∧
  (∀ fuel v, readonly (findRecursively fuel v)) ∧
  (∀ fuel v cur, readonly (findRecursively_from fuel v cur)) ∧
  (∀ fuel, readonly (dfsPreOrder fuel)) ∧
  (∀ fuel, readonly (dfsInOrder fuel)) ∧
  (∀ fuel, readonly (dfsPostOrder fuel)) ∧
  (∀ fuel, readonly (bfs fuel)) ∧
  (∀ fuel, readonly (dfsInOrderIterative fuel)) ∧
  (∀ fuel, readonly (isBalanced fuel)) ∧
  (∀ fuel cur, readonly (isBalanced_from fuel cur)) ∧
  (∀ fuel, readonly (findSecondHighest fuel)) ∧
  (∀ fuel cur, readonly (findSecondHighest_from fuel cur)).
Proof.
  split_and!; intros.
  - apply readonly_find.
  - apply readonly_bind; [apply readonly_get_root|].
    intros; apply readonly_findRecursively_from.
  - apply readonly_findRecursively_from.
  - apply readonly_bind; [apply readonly_get_root|].
    intros; apply readonly_traverse_pre.
  - apply readonly_bind; [apply readonly_get_root|].
    intros; apply readonly_traverse_in.
  - apply readonly_bind; [apply readonly_get_root|].
    intros; apply readonly_traverse_post.
  - apply readonly_bind; [apply readonly_get_root|].
    intros; apply readonly_bfs_loop.
  - apply readonly_bind; [apply readonly_get_root|].
    intros; apply readonly_inorder_loop.
  - apply readonly_bind; [apply readonly_get_root|].
    intros; apply readonly_isBalanced_from.
  - apply readonly_isBalanced_from.
  - apply readonly_bind; [apply readonly_get_root|].
    intros; apply readonly_findSecondHighest_from.
  - apply readonly_findSecondHighest_from.
Qed.


(** * Further properties *)

(** ** Lookup *)

Lemma found_node_absent v t : on_path v t = false → found_node v t = None.
Proof.
  induction t as [|a l IHl x r IHr]; [done|]. simpl.
  case_bool_decide; [done|]. by destruct (v <? x).
Qed.

Lemma find_loop_spec h rt v t :
  shape h t → ∀ fuel, (height t ≤ fuel)%nat →
  find_loop fuel v (ptr t) false (mkStore h rt)
  = (Ret (found_node v t, on_path v t), mkStore h rt).
Proof.
  induction t as [|a l IHl x r IHr]; intros Hs fuel Hf.
  - by destruct fuel.
  - destruct Hs as (Ha & Hl & Hr). simpl in Hf.
    destruct fuel as [|fuel]; [lia|].
    cbn [find_loop ptr truthy negb andb found_node on_path]. step.
    unfold js_lt, js_gt. cbn [to_number].
    case_bool_decide as Hx.
    + subst x. rewrite !Z.ltb_irrefl. by destruct fuel.
    + destruct (v <? x) eqn:E.
      * step. apply IHl; [done|lia].
      * assert ((x <? v) = true) as -> by lia.
        step. apply IHr; [done|lia].
Qed.

Lemma find_spec s t v fuel :
  repr s t → (height t ≤ fuel)%nat →
  find fuel v s = (Ret (found_node v t), s).
Proof.
  destruct s as [h rt]. intros [Hrt Hs] Hf. simpl in *. subst rt.
  unfold find. step. destruct t as [|a l x r].
  - simpl. step. by destruct fuel.
  - destruct Hs as (Ha & Hl & Hr). cbn [ptr]. step.
    unfold strict_eq. cbn [val found_node]. case_bool_decide as Hx.
    + injection Hx as ->. by rewrite bool_decide_true.
    + rewrite bool_decide_false by congruence.
      erewrite bind_Ret
        by (apply (find_loop_spec h (Some a) v (Br a l x r)); [by split_and!|done]).
      cbv beta iota. cbn [found_node on_path].
      rewrite bool_decide_false by congruence.
      destruct (on_path v (if v <? x then l else r)) eqn:Hp;
        destruct (v <? x); rewrite Hp; try done;
        by rewrite (found_node_absent _ _ Hp).
Qed.

Lemma findRecursively_from_spec h rt v t :
  is_null rt = false → t ≠ Leaf → shape h t →
  ∀ fuel, (height t ≤ fuel)%nat →
  findRecursively_from fuel v (ptr t) (mkStore h rt)
  = (Ret (found_node v t), mkStore h rt).
Proof.
  intros Hrt. induction t as [|a l IHl x r IHr]; intros Hnl Hs fuel Hf; [done|].
  destruct Hs as (Ha & Hl & Hr). simpl in Hf.
  destruct fuel as [|fuel]; [lia|].
  cbn [findRecursively_from ptr found_node]. step. rewrite Hrt. step.
  unfold js_lt, js_gt. cbn [to_number].
  case_bool_decide as Hx.
  - subst x. by rewrite !Z.ltb_irrefl.
  - destruct (v <? x) eqn:E.
    + step. destruct l as [|b ll y lr]; [done|].
      change (is_null (ptr (Br b ll y lr))) with false. cbv iota.
      apply IHl; [done|done|lia].
    + assert ((x <? v) = true) as -> by lia.
      step. destruct r as [|b rl y rr]; [done|].
      change (is_null (ptr (Br b rl y rr))) with false. cbv iota.
      apply IHr; [done|done|lia].
Qed.

Lemma findRecursively_spec s t v fuel :
  repr s t → (height t ≤ fuel)%nat → (0 < fuel)%nat →
  findRecursively fuel v s = (Ret (found_node v t), s).
Proof.
  destruct s as [h rt]. intros [Hrt Hs] Hf Hf'. simpl in *. subst rt.
  unfold findRecursively. step. destruct t as [|a l x r].
  - destruct fuel; [lia|]. simpl. by step.
  - by apply (findRecursively_from_spec h _ v (Br a l x r)).
Qed.

(** In an ordered tree the node found holds the value, and a node is found
    exactly for the values of the tree. *)
Lemma found_node_member h v t :
  shape h t → bst_le t →
  match found_node v t with
  | Some n => v ∈ inorder t ∧ n ∈ addrs t ∧ val <$> h !! n = Some (JNum v)
  | None => v ∉ inorder t
  end.
Proof.
  intros Hs Hb. destruct (on_path v t) eqn:Hp.
  - destruct (found_node_addrs v t Hp) as (n & Hn & Hin). rewrite Hn.
    destruct (found_tree_root v t n Hp Hn) as (l' & r' & Hft).
    pose proof (found_tree_subtree v t) as Hsub. rewrite Hft in Hsub.
    split_and!; [|done|by rewrite (subtree_lookup _ _ _ _ _ _ Hs Hsub)].
    clear -Hsub. induction t as [|a l IHl x r IHr]; simpl in *.
    + by destruct Hsub as [?|[]].
    + destruct Hsub as [[= _ _ -> _]|[H|H]]; set_solver.
  - rewrite (found_node_absent _ _ Hp). intros Hin.
    by rewrite (on_path_present v t Hb Hin) in Hp.
Qed.

(** X1.  On a tree that is ordered (smaller values left, others right),
    [find(v)] returns a node of the tree that holds [v] when [v] is among
    the values of the tree, and [undefined] when it is not. *)
Theorem find_correct s t v fuel :
  repr s t → bst_le t → (height t ≤ fuel)%nat →
  ∃ r,
    find fuel v s = (Ret r, s) ∧
    match r with
    | Some n => v ∈ inorder t ∧ n ∈ addrs t ∧ val <$> heap s !! n = Some (JNum v)
    | None => v ∉ inorder t
    end.
Proof.
  intros Hrepr Hb Hf. exists (found_node v t).
  split; [by apply find_spec|]. destruct Hrepr. by apply found_node_member.
Qed.

(** X1, at the tree with the single value 5, looking for 5. *)
Lemma find_correct_witness :
  let s := mkStore {[1%positive := mkNode (JNum 5) None None]} (Some 1%positive) in
  let t := Br 1%positive Leaf 5 Leaf in
  repr s t ∧ bst_le t ∧ (height t ≤ 1)%nat ∧
  ∃ r,
    find 1 5 s = (Ret r, s) ∧
    match r with
    | Some n => 5 ∈ inorder t ∧ n ∈ addrs t ∧ val <$> heap s !! n = Some (JNum 5)
    | None => 5 ∉ inorder t
    end.
Proof.
  intros s t.
  assert (Hrepr : repr s t) by (split; [reflexivity|by repeat split]).
  assert (Hb : bst_le t) by (by repeat constructor).
  assert (Hf : (height t ≤ 1)%nat) by (simpl; lia).
  split; [exact Hrepr|]. split; [exact Hb|]. split; [exact Hf|].
  exact (find_correct s t 5 1%nat Hrepr Hb Hf).
Defined.

(** X2.  On every tree, ordered or not, [find(v)] and [findRecursively(v)]
    return the same node: the first node on the comparison path from the
    root that holds [v], or [undefined] when the path runs off the tree. *)
Theorem find_findRecursively s t v fuel :
  repr s t → (height t ≤ fuel)%nat → (0 < fuel)%nat →
  find fuel v s = (Ret (found_node v t), s) ∧
  findRecursively fuel v s = find fuel v s.
Proof.
  intros Hrepr Hf Hf'.
  by rewrite (find_spec s t), (findRecursively_spec s t).
Qed.

(** X2, at the tree with the single value 5, looking for 7. *)
Lemma find_findRecursively_witness :
  let s := mkStore {[1%positive := mkNode (JNum 5) None None]} (Some 1%positive) in
  let t := Br 1%positive Leaf 5 Leaf in
  repr s t ∧ (height t ≤ 1)%nat ∧ (0 < 1)%nat ∧
  find 1 7 s = (Ret (found_node 7 t), s) ∧
  findRecursively 1 7 s = find 1 7 s.
Proof.
  intros s t.
  assert (Hrepr : repr s t) by (split; [reflexivity|by repeat split]).
  assert (Hf : (height t ≤ 1)%nat) by (simpl; lia).
  assert (Hf' : (0 < 1)%nat) by lia.
  split; [exact Hrepr|]. split; [exact Hf|]. split; [exact Hf'|].
  exact (find_findRecursively s t 7 1%nat Hrepr Hf Hf').
Defined.

(** ** The strict ordering under [insert] and [remove] *)

Lemma bst_sorted t : bst t → StronglySorted Z.lt (inorder t).
Proof.
  induction t as [|a l IHl v r IHr]; simpl; [constructor|].
  intros (Hl & Hr & Hbl & Hbr).
  apply StronglySorted_app_2; auto.
  - intros x y Hx Hy. rewrite Forall_forall in Hl, Hr.
    apply Hl in Hx. apply elem_of_cons in Hy as [->|Hy]; [lia|].
    apply Hr in Hy. lia.
  - constructor; auto.
Qed.

Lemma del_leftmost_bst t : bst t → bst (del_leftmost t).
Proof.
  induction t as [|b l IHl y r IHr]; [done|].
  intros (Hfl & Hfr & Hbl & Hbr).
  destruct l as [|c ll z lr]; [done|].
  cbn [del_leftmost bst]. split_and!; auto.
  eapply sublist_Forall'; [|exact Hfl].
  pose proof (del_leftmost_inorder (Br c ll z lr)) as E.
  rewrite E by done. by apply sublist_cons.
Qed.

Lemma del_root_bst t : bst t → bst (del_root t).
Proof.
  destruct t as [|a l x r]; [done|].
  intros (Hfl & Hfr & Hbl & Hbr).
  destruct l as [|b ll y lr], r as [|c rl z rr]; try done.
  set (l := Br b ll y lr) in *.
  destruct rl as [|d rll w rlr].
  - change (del_root (Br a l x (Br c Leaf z rr))) with (Br c l z rr).
    destruct Hbr as (_ & Hrr & _ & Hbrr).
    cbn [bst]. split_and!; auto.
    apply Forall_cons in Hfr as [Hz _].
    eapply Forall_impl; [exact Hfl|]. simpl. intros; lia.
  - set (r := Br c (Br d rll w rlr) z rr) in *.
    change (del_root (Br a l x r))
      with (Br a l (value_of (leftmost r)) (del_leftmost r)).
    assert (Hr : r ≠ Leaf) by done.
    pose proof (leftmost_elem r Hr) as Hm.
    pose proof (bst_sorted r Hbr) as Hsorted.
    rewrite (del_leftmost_inorder r Hr) in Hsorted.
    apply StronglySorted_inv in Hsorted as [_ Hall].
    cbn [bst]. split_and!; auto using del_leftmost_bst.
    rewrite Forall_forall in Hfr. apply Hfr in Hm. cbv beta in Hm.
    eapply Forall_impl; [exact Hfl|]. cbv beta. intros; lia.
Qed.

Lemma tremove_bst v t : bst t → bst (tremove v t).
Proof.
  induction t as [|a l IHl x r IHr]; [done|].
  intros Hb. cbn [tremove]. case_bool_decide; [by apply del_root_bst|].
  destruct Hb as (Hfl & Hfr & Hbl & Hbr).
  destruct (v <? x); cbn [bst]; split_and!; auto.
  - eapply sublist_Forall'; [apply tremove_inorder|done].
  - eapply sublist_Forall'; [apply tremove_inorder|done].
Qed.

(** The values before and after a removal. *)
Lemma tremove_inorder_split v t :
  on_path v t = true →
  ∃ l1 l2, inorder t = l1 ++ v :: l2 ∧ inorder (tremove v t) = l1 ++ l2.
Proof.
  induction t as [|a l IHl x r IHr]; [done|].
  cbn [on_path tremove]. case_bool_decide as Hx.
  - intros _. subst x. exists (inorder l), (inorder r).
    split; [done|apply del_root_inorder].
  - destruct (v <? x); intros Hp.
    + destruct (IHl Hp) as (l1 & l2 & E1 & E2).
      exists l1, (l2 ++ x :: inorder r). cbn [inorder].
      rewrite E1, E2. by rewrite <- !app_assoc.
    + destruct (IHr Hp) as (l1 & l2 & E1 & E2).
      exists (inorder l ++ x :: l1), l2. cbn [inorder].
      rewrite E1, E2. by rewrite <- !app_assoc.
Qed.

Lemma tremove_tsize v t :
  on_path v t = true → S (tsize (tremove v t)) = tsize t.
Proof.
  intros Hp. destruct (tremove_inorder_split v t Hp) as (l1 & l2 & E1 & E2).
  rewrite <- !inorder_length, E1, E2, !length_app. simpl. lia.
Qed.

Lemma del_leftmost_height t : (height (del_leftmost t) ≤ height t)%nat.
Proof.
  induction t as [|b l IHl y r IHr]; [done|].
  destruct l; simpl in *; lia.
Qed.

Lemma tremove_height v t : (height (tremove v t) ≤ height t)%nat.
Proof.
  induction t as [|a l IHl x r IHr]; [done|].
  cbn [tremove]. case_bool_decide.
  - destruct l as [|b ll y lr], r as [|c [|d rll w rlr] z rr]; simpl; try lia.
    pose proof (del_leftmost_height (Br d rll w rlr)). simpl in *. lia.
  - destruct (v <? x); simpl; lia.
Qed.

Lemma bst_NoDup t : bst t → NoDup (inorder t).
Proof.
  intros Hb. apply bst_sorted in Hb.
  induction Hb as [|x xs Hs IH Hall]; constructor; [|done].
  intros Hin. rewrite Forall_forall in Hall. apply Hall in Hin. lia.
Qed.

(** A call of [insert] that returns, on a tree with the strict ordering. *)
Lemma insert_returns_bst s t v fuel s' :
  repr s t → unshared t → bst t → insert fuel v s = (Ret this, s') →
  (v ∉ inorder t) ∧
  repr s' (tinsert (fresh (dom (heap s))) v t) ∧
  unshared (tinsert (fresh (dom (heap s))) v t) ∧
  bst (tinsert (fresh (dom (heap s))) v t).
Proof.
  intros Hrepr Hu Hb Hrun.
  assert (Hv : v ∉ inorder t).
  { intros Hv.
    rewrite (insert_present_diverges s t v Hrepr (bst_bst_le t Hb) Hv) in Hrun.
    discriminate. }
  split; [done|].
  apply (insert_returns s t) in Hrun; [|done].
  destruct (insertRecursively_spec s t v (S fuel `max` height t))
    as (s1 & Hrun1 & Hr1); [done|done|lia|lia|].
  pose proof (insertRecursively_mono (S fuel) (S fuel `max` height t) v
                ltac:(lia) _ _ _ Hrun I) as Hrun'.
  rewrite Hrun1 in Hrun'. injection Hrun' as <-.
  split; [done|].
  split; [apply tinsert_unshared; [done|by apply repr_fresh]|].
  by apply tinsert_bst.
Qed.

(** X3.  Every tree obtained from the empty tree by calls of [insert] and
    [remove] only (calls that come back: [insert] returning, [remove]
    returning or throwing) satisfies the strict ordering invariant: at every
    node the values of the left subtree are strictly smaller and the values
    of the right subtree strictly greater; in particular no value occurs
    twice. *)
Theorem reachable_iterative_strict s :
  reachable_iterative s →
  ∃ t, repr s t ∧ unshared t ∧ bst t ∧ NoDup (inorder t).
Proof.
  intros Hreach.
  assert (∃ t, repr s t ∧ unshared t ∧ bst t) as (t & Hr & Hu & Hb).
  { induction Hreach as [|s fuel v s' _ (t & Hr & Hu & Hb) Hrun
                         |s fuel v o s' _ (t & Hr & Hu & Hb) Hrun Hfin].
    - exists Leaf. split; [apply repr_empty|]. split; [apply NoDup_nil_2|done].
    - destruct (insert_returns_bst s t v fuel s' Hr Hu Hb Hrun)
        as (_ & ? & ? & ?). eauto.
    - pose proof (remove_mono fuel (fuel `max` S (height t)) v
                    ltac:(lia) _ _ _ Hrun Hfin) as Hrun'.
      destruct (on_path v t) eqn:Hp.
      + destruct (remove_found s t v (fuel `max` S (height t)))
          as (s1 & Hrun1 & Hr1); [done|done|done|lia|].
        rewrite Hrun1 in Hrun'. injection Hrun' as _ <-.
        exists (tremove v t). auto using tremove_unshared, tremove_bst.
      + rewrite (remove_absent s t) in Hrun'; [|done|done|lia].
        injection Hrun' as _ <-. eauto. }
  exists t. split_and!; auto using bst_NoDup.
Qed.

(** X3, at the tree obtained by [insert(5)]. *)
Lemma reachable_iterative_strict_witness :
  reachable_iterative (insert 1 5 empty_tree).2 ∧
  ∃ t, repr (insert 1 5 empty_tree).2 t ∧ unshared t ∧ bst t ∧ NoDup (inorder t).
Proof.
  assert (reachable_iterative (insert 1 5 empty_tree).2) as Hreach.
  { eapply (reach_it_insert empty_tree 1 5); [apply reach_it_empty|]. reflexivity. }
  split; [exact Hreach|]. exact (reachable_iterative_strict _ Hreach).
Defined.

(** X4.  On a tree with the strict ordering, [insert(v)] returns exactly
    when [v] is not yet in the tree: for a value of the tree no amount of
    fuel makes it return, and for a new value it returns as soon as the fuel
    reaches the height, with [v] added and the strict ordering kept. *)
Theorem insert_returns_iff_absent s t v :
  repr s t → unshared t → bst t →
  (v ∈ inorder t → ∀ fuel, insert fuel v s = (OutOfFuel, s)) ∧
  (v ∉ inorder t →
   ∀ fuel, (height t ≤ fuel)%nat →
     ∃ s' t',
       insert fuel v s = (Ret this, s') ∧ repr s' t' ∧ unshared t' ∧ bst t' ∧
       inorder t' ≡ₚ v :: inorder t).
Proof.
  intros Hrepr Hu Hb. split.
  - intros Hv. apply (insert_present_diverges s t); auto using bst_bst_le.
  - intros Hv fuel Hf.
    destruct (insert_spec s t v fuel) as (s' & Hrun & _ & Hrepr'); auto.
    exists s', (tinsert (fresh (dom (heap s))) v t).
    split_and!; auto using tinsert_bst, tinsert_inorder.
    apply tinsert_unshared; [done|by apply repr_fresh].
Qed.

(** X4, at the tree with the single value 5. *)
Lemma insert_returns_iff_absent_witness :
  let s := mkStore {[1%positive := mkNode (JNum 5) None None]} (Some 1%positive) in
  let t := Br 1%positive Leaf 5 Leaf in
  repr s t ∧ unshared t ∧ bst t ∧
  (5 ∈ inorder t → ∀ fuel, insert fuel 5 s = (OutOfFuel, s)) ∧
  (5 ∉ inorder t →
   ∀ fuel, (height t ≤ fuel)%nat →
     ∃ s' t',
       insert fuel 5 s = (Ret this, s') ∧ repr s' t' ∧ unshared t' ∧ bst t' ∧
       inorder t' ≡ₚ 5 :: inorder t).
Proof.
  intros s t.
  assert (Hrepr : repr s t) by (split; [reflexivity|by repeat split]).
  assert (Hu : unshared t) by apply NoDup_singleton.
  assert (Hb : bst t) by (by repeat constructor).
  split; [exact Hrepr|]. split; [exact Hu|]. split; [exact Hb|].
  exact (insert_returns_iff_absent s t 5 Hrepr Hu Hb).
Defined.

(** X5.  On an ordered tree, [remove(v)] of a value of the tree returns a
    node and leaves an ordered tree with one node less, whose in-order
    sequence is the former one with one occurrence of [v] taken out; all
    other values stay, in the same order. *)
Theorem remove_present s t v fuel :
  repr s t → unshared t → bst_le t → v ∈ inorder t → (height t < fuel)%nat →
  ∃ n s' t' l1 l2,
    remove fuel v s = (Ret (Some n), s') ∧
    repr s' t' ∧ unshared t' ∧ bst_le t' ∧
    S (tsize t') = tsize t ∧
    dfsInOrder fuel s = (Ret (map JNum (l1 ++ v :: l2)), s) ∧
    dfsInOrder fuel s' = (Ret (map JNum (l1 ++ l2)), s').
Proof.
  intros Hrepr Hu Hb Hv Hf.
  pose proof (on_path_present v t Hb Hv) as Hp.
  destruct (remove_found s t v fuel) as (s' & Hrun & Hrepr'); auto.
  destruct (found_node_addrs v t Hp) as (n & Hn & _). rewrite Hn in Hrun.
  destruct (tremove_inorder_split v t Hp) as (l1 & l2 & E1 & E2).
  pose proof (tremove_tsize v t Hp) as Hsize.
  exists n, s', (tremove v t), l1, l2.
  split_and!; auto using tremove_unshared, tremove_bst_le.
  - rewrite <- E1. by apply dfsInOrder_spec.
  - rewrite <- E2. apply dfsInOrder_spec; [done|].
    pose proof (tremove_height v t). lia.
Qed.

(** X5, at the tree with the single value 5, removing 5. *)
Lemma remove_present_witness :
  let s := mkStore {[1%positive := mkNode (JNum 5) None None]} (Some 1%positive) in
  let t := Br 1%positive Leaf 5 Leaf in
  repr s t ∧ unshared t ∧ bst_le t ∧ 5 ∈ inorder t ∧ (height t < 2)%nat ∧
  ∃ n s' t' l1 l2,
    remove 2 5 s = (Ret (Some n), s') ∧
    repr s' t' ∧ unshared t' ∧ bst_le t' ∧
    S (tsize t') = tsize t ∧
    dfsInOrder 2 s = (Ret (map JNum (l1 ++ 5 :: l2)), s) ∧
    dfsInOrder 2 s' = (Ret (map JNum (l1 ++ l2)), s').
Proof.
  intros s t.
  assert (Hrepr : repr s t) by (split; [reflexivity|by repeat split]).
  assert (Hu : unshared t) by apply NoDup_singleton.
  assert (Hb : bst_le t) by (by repeat constructor).
  assert (Hv : 5 ∈ inorder t) by (simpl; left).
  assert (Hf : (height t < 2)%nat) by (simpl; lia).
  split; [exact Hrepr|]. split; [exact Hu|]. split; [exact Hb|].
  split; [exact Hv|]. split; [exact Hf|].
  exact (remove_present s t 5 2%nat Hrepr Hu Hb Hv Hf).
Defined.

(** ** Lookup after a change of the tree *)

Lemma found_node_val h v t n :
  shape h t → found_node v t = Some n → val <$> h !! n = Some (JNum v).
Proof.
  induction t as [|a l IHl x r IHr]; [done|].
  intros (Ha & Hl & Hr). cbn [found_node]. case_bool_decide as Hx.
  - intros [= <-]. rewrite Ha. simpl. by subst x.
  - destruct (v <? x); auto.
Qed.

Lemma found_node_tinsert a v w t :
  w ≠ v → found_node w (tinsert a v t) = found_node w t.
Proof.
  intros Hw. induction t as [|b l IHl x r IHr]; simpl.
  - rewrite bool_decide_false by congruence. by destruct (w <? v).
  - destruct (v <? x); simpl; case_bool_decide; try done; by destruct (w <? x).
Qed.

Lemma on_path_tinsert a v t : on_path v (tinsert a v t) = true.
Proof.
  induction t as [|b l IHl x r IHr]; simpl.
  - by rewrite bool_decide_true.
  - destruct (v <? x) eqn:E; simpl; rewrite E; by case_bool_decide.
Qed.

Lemma found_node_tinsert_new a v t :
  on_path v t = false → found_node v (tinsert a v t) = Some a.
Proof.
  induction t as [|b l IHl x r IHr]; simpl.
  - by rewrite bool_decide_true.
  - case_bool_decide; [done|].
    destruct (v <? x) eqn:E; simpl; rewrite E, bool_decide_false; auto.
Qed.

Lemma tremove_tinsert a v t :
  on_path v t = false → tremove v (tinsert a v t) = t.
Proof.
  induction t as [|b l IHl x r IHr]; simpl.
  - by rewrite bool_decide_true.
  - case_bool_decide; [done|].
    destruct (v <? x) eqn:E; intros Hp; cbn [tremove];
      rewrite E, bool_decide_false by done; f_equal; auto.
Qed.

(** X6.  On a tree with the strict ordering, after [remove(v)] of a value
    of the tree [find(v)] returns [undefined], and every other value of the
    tree is still found, at a node that holds it. *)
Theorem remove_then_find s t v fuel :
  repr s t → unshared t → bst t → v ∈ inorder t → (height t < fuel)%nat →
  ∃ n s',
    remove fuel v s = (Ret (Some n), s') ∧
    find fuel v s' = (Ret None, s') ∧
    ∀ w, w ≠ v → w ∈ inorder t →
      ∃ m, find fuel w s' = (Ret (Some m), s') ∧
           val <$> heap s' !! m = Some (JNum w).
Proof.
  intros Hrepr Hu Hb Hv Hf.
  pose proof (on_path_present v t (bst_bst_le t Hb) Hv) as Hp.
  destruct (remove_found s t v fuel) as (s' & Hrun & Hrepr'); auto.
  destruct (found_node_addrs v t Hp) as (n & Hn & _). rewrite Hn in Hrun.
  destruct (tremove_inorder_split v t Hp) as (l1 & l2 & E1 & E2).
  pose proof (bst_NoDup t Hb) as Hnd. rewrite E1 in Hnd.
  apply NoDup_app in Hnd as (_ & Hl1 & [Hl2 _]%NoDup_cons).
  pose proof (tremove_height v t) as Hh.
  assert (Hfind : ∀ w, find fuel w s' = (Ret (found_node w (tremove v t)), s')).
  { intros w. apply find_spec; [done|lia]. }
  assert (Hmem : ∀ w,
    match found_node w (tremove v t) with
    | Some m => w ∈ inorder (tremove v t) ∧ m ∈ addrs (tremove v t) ∧
                val <$> heap s' !! m = Some (JNum w)
    | None => w ∉ inorder (tremove v t)
    end).
  { intros w. apply found_node_member; [apply Hrepr'|].
    by apply tremove_bst_le, bst_bst_le. }
  exists n, s'. split; [done|]. split.
  - rewrite Hfind. pose proof (Hmem v) as Hm.
    destruct (found_node v (tremove v t)); [|done].
    destruct Hm as (Hin & _). rewrite E2 in Hin.
    apply elem_of_app in Hin as [Hin|Hin]; [|done].
    destruct (Hl1 v Hin). by left.
  - intros w Hw Hin. rewrite Hfind. pose proof (Hmem w) as Hm.
    destruct (found_node w (tremove v t)) as [m|].
    + exists m. by destruct Hm as (_ & _ & ?).
    + destruct Hm. rewrite E2. rewrite E1 in Hin.
      apply elem_of_app in Hin as [Hin|Hin]; apply elem_of_app; [by left|].
      apply elem_of_cons in Hin as [?|Hin]; [done|by right].
Qed.

(** X6, at the tree with the single value 5, removing 5. *)
Lemma remove_then_find_witness :
  let s := mkStore {[1%positive := mkNode (JNum 5) None None]} (Some 1%positive) in
  let t := Br 1%positive Leaf 5 Leaf in
  repr s t ∧ unshared t ∧ bst t ∧ 5 ∈ inorder t ∧ (height t < 2)%nat ∧
  ∃ n s',
    remove 2 5 s = (Ret (Some n), s') ∧
    find 2 5 s' = (Ret None, s') ∧
    ∀ w, w ≠ 5 → w ∈ inorder t →
      ∃ m, find 2 w s' = (Ret (Some m), s') ∧
           val <$> heap s' !! m = Some (JNum w).
Proof.
  intros s t.
  assert (Hrepr : repr s t) by (split; [reflexivity|by repeat split]).
  assert (Hu : unshared t) by apply NoDup_singleton.
  assert (Hb : bst t) by (by repeat constructor).
  assert (Hv : 5 ∈ inorder t) by (simpl; left).
  assert (Hf : (height t < 2)%nat) by (simpl; lia).
  split; [exact Hrepr|]. split; [exact Hu|]. split; [exact Hb|].
  split; [exact Hv|]. split; [exact Hf|].
  exact (remove_then_find s t 5 2%nat Hrepr Hu Hb Hv Hf).
Defined.

(** X7.  After [insertRecursively(v)], which always returns, [find(v)]
    returns a node that holds [v], and for every other value [find] returns
    what it returned before the insertion. *)
Theorem insertRecursively_then_find s t v fuel :
  repr s t → unshared t → (height t < fuel)%nat →
  ∃ s' n,
    insertRecursively fuel v s = (Ret this, s') ∧
    find fuel v s' = (Ret (Some n), s') ∧
    val <$> heap s' !! n = Some (JNum v) ∧
    ∀ w, w ≠ v → ∃ r, find fuel w s = (Ret r, s) ∧ find fuel w s' = (Ret r, s').
Proof.
  intros Hrepr Hu Hf.
  destruct (insertRecursively_spec s t v fuel) as (s' & Hrun & Hrepr');
    [done|done|lia|lia|].
  set (t' := tinsert (fresh (dom (heap s))) v t) in *.
  pose proof (tinsert_height (fresh (dom (heap s))) v t) as Hh. fold t' in Hh.
  destruct (found_node_addrs v t' (on_path_tinsert _ v t)) as (n & Hn & _).
  exists s', n. split; [done|]. split; [|split].
  - rewrite <- Hn. apply find_spec; [done|lia].
  - eapply found_node_val; [apply Hrepr'|done].
  - intros w Hw. exists (found_node w t). split.
    + apply find_spec; [done|lia].
    + rewrite <- (found_node_tinsert (fresh (dom (heap s))) v w t Hw).
      fold t'. apply find_spec; [done|lia].
Qed.

(** X7, at the tree with the single value 5, inserting 5 again. *)
Lemma insertRecursively_then_find_witness :
  let s := mkStore {[1%positive := mkNode (JNum 5) None None]} (Some 1%positive) in
  let t := Br 1%positive Leaf 5 Leaf in
  repr s t ∧ unshared t ∧ (height t < 2)%nat ∧
  ∃ s' n,
    insertRecursively 2 5 s = (Ret this, s') ∧
    find 2 5 s' = (Ret (Some n), s') ∧
    val <$> heap s' !! n = Some (JNum 5) ∧
    ∀ w, w ≠ 5 → ∃ r, find 2 w s = (Ret r, s) ∧ find 2 w s' = (Ret r, s').
Proof.
  intros s t.
  assert (Hrepr : repr s t) by (split; [reflexivity|by repeat split]).
  assert (Hu : unshared t) by apply NoDup_singleton.
  assert (Hf : (height t < 2)%nat) by (simpl; lia).
  split; [exact Hrepr|]. split; [exact Hu|]. split; [exact Hf|].
  exact (insertRecursively_then_find s t 5 2%nat Hrepr Hu Hf).
Defined.

(** X8.  Inserting a value that the tree does not hold and removing it
    again restores the tree: [remove] returns the node that [insert]
    created, and every node of the tree is where it was, with its value and
    its links. *)
Theorem insert_then_remove s t v fuel :
  repr s t → unshared t → v ∉ inorder t → (S (height t) < fuel)%nat →
  ∃ s1 s2,
    insert fuel v s = (Ret this, s1) ∧
    remove fuel v s1 = (Ret (Some (fresh (dom (heap s)))), s2) ∧
    (fresh (dom (heap s)) ∉ addrs t) ∧
    repr s2 t.
Proof.
  intros Hrepr Hu Hv Hf.
  destruct (insert_spec s t v fuel) as (s1 & Hrun & _ & Hrepr1);
    [done|done|done|lia|].
  pose proof (repr_fresh s t Hrepr) as Hfresh.
  pose proof (on_path_absent v t Hv) as Hp.
  pose proof (tinsert_height (fresh (dom (heap s))) v t) as Hh.
  destruct (remove_found s1 (tinsert (fresh (dom (heap s))) v t) v fuel)
    as (s2 & Hrun2 & Hrepr2);
    [done|by apply tinsert_unshared|apply on_path_tinsert|lia|].
  rewrite found_node_tinsert_new in Hrun2 by done.
  rewrite tremove_tinsert in Hrepr2 by done.
  by exists s1, s2.
Qed.

(** X8, at the tree with the single value 5, with the value 7. *)
Lemma insert_then_remove_witness :
  let s := mkStore {[1%positive := mkNode (JNum 5) None None]} (Some 1%positive) in
  let t := Br 1%positive Leaf 5 Leaf in
  repr s t ∧ unshared t ∧ (7 ∉ inorder t) ∧ (S (height t) < 3)%nat ∧
  ∃ s1 s2,
    insert 3 7 s = (Ret this, s1) ∧
    remove 3 7 s1 = (Ret (Some (fresh (dom (heap s)))), s2) ∧
    (fresh (dom (heap s)) ∉ addrs t) ∧
    repr s2 t.
Proof.
  intros s t.
  assert (Hrepr : repr s t) by (split; [reflexivity|by repeat split]).
  assert (Hu : unshared t) by apply NoDup_singleton.
  assert (Hv : 7 ∉ inorder t).
  { simpl. intros [?|Hin]%elem_of_cons; [done|]. by apply elem_of_nil in Hin. }
  assert (Hf : (S (height t) < 3)%nat) by (simpl; lia).
  split; [exact Hrepr|]. split; [exact Hu|]. split; [exact Hv|].
  split; [exact Hf|].
  exact (insert_then_remove s t 7 3%nat Hrepr Hu Hv Hf).
Defined.

(** ** The pre-order and post-order traversals *)

Lemma traverse_pre_spec h rt t :
  shape h t → ∀ fuel data, (height t < fuel)%nat →
  traverse_pre fuel (ptr t) data (mkStore h rt)
  = (Ret (data ++ map JNum (preorder t)), mkStore h rt).
Proof.
  induction t as [|a l IHl v r IHr]; intros Hs fuel data Hf.
  - destruct fuel; [lia|]. simpl. by rewrite app_nil_r.
  - destruct Hs as (Ha & Hl & Hr). destruct fuel; [simpl in Hf; lia|].
    simpl in Hf. simpl. steps.
    erewrite bind_Ret by (apply IHl; [done|lia]).
    steps. rewrite IHr by (done || lia).
    by rewrite map_app, <- !app_assoc.
Qed.

Lemma traverse_post_spec h rt t :
  shape h t → ∀ fuel data, (height t < fuel)%nat →
  traverse_post fuel (ptr t) data (mkStore h rt)
  = (Ret (data ++ map JNum (postorder t)), mkStore h rt).
Proof.
  induction t as [|a l IHl v r IHr]; intros Hs fuel data Hf.
  - destruct fuel; [lia|]. simpl. by rewrite app_nil_r.
  - destruct Hs as (Ha & Hl & Hr). destruct fuel; [simpl in Hf; lia|].
    simpl in Hf. simpl. step.
    erewrite bind_Ret by (apply IHl; [done|lia]).
    step. erewrite bind_Ret by (apply IHr; [done|lia]).
    steps. by rewrite !map_app, <- !app_assoc.
Qed.

Lemma preorder_inorder t : preorder t ≡ₚ inorder t.
Proof.
  induction t as [|a l IHl v r IHr]; simpl; [done|].
  by rewrite IHl, IHr, <- Permutation_middle.
Qed.

Lemma postorder_inorder t : postorder t ≡ₚ inorder t.
Proof.
  induction t as [|a l IHl v r IHr]; simpl; [done|].
  rewrite IHl, IHr, app_assoc, <- Permutation_cons_append.
  by rewrite <- Permutation_middle.
Qed.

(** X9.  [dfsPreOrder] returns the values with every node before its left
    and right subtrees, [dfsPostOrder] with every node after them; both
    results hold the values of [dfsInOrder], each as often, and the
    pre-order result begins with the value that the post-order result ends
    with (the value at the root). *)
Theorem dfsPreOrder_dfsPostOrder s t fuel :
  repr s t → (height t < fuel)%nat →
  dfsPreOrder fuel s = (Ret (map JNum (preorder t)), s) ∧
  dfsPostOrder fuel s = (Ret (map JNum (postorder t)), s) ∧
  dfsInOrder fuel s = (Ret (map JNum (inorder t)), s) ∧
  preorder t ≡ₚ inorder t ∧ postorder t ≡ₚ inorder t ∧
  head (preorder t) = last (postorder t).
Proof.
  intros Hrepr Hf. split_and!.
  - destruct s as [h rt]. destruct Hrepr as [Hr Hs]. simpl in *. subst rt.
    unfold dfsPreOrder. step. by rewrite traverse_pre_spec.
  - destruct s as [h rt]. destruct Hrepr as [Hr Hs]. simpl in *. subst rt.
    unfold dfsPostOrder. step. by rewrite traverse_post_spec.
  - by apply dfsInOrder_spec.
  - apply preorder_inorder.
  - apply postorder_inorder.
  - destruct t as [|a l v r]; [done|]. simpl.
    by rewrite app_assoc, last_snoc.
Qed.

(** X9, at the tree with the single value 5. *)
Lemma dfsPreOrder_dfsPostOrder_witness :
  let s := mkStore {[1%positive := mkNode (JNum 5) None None]} (Some 1%positive) in
  let t := Br 1%positive Leaf 5 Leaf in
  repr s t ∧ (height t < 2)%nat ∧
  dfsPreOrder 2 s = (Ret (map JNum (preorder t)), s) ∧
  dfsPostOrder 2 s = (Ret (map JNum (postorder t)), s) ∧
  dfsInOrder 2 s = (Ret (map JNum (inorder t)), s) ∧
  preorder t ≡ₚ inorder t ∧ postorder t ≡ₚ inorder t ∧
  head (preorder t) = last (postorder t).
Proof.
  intros s t.
  assert (Hrepr : repr s t) by (split; [reflexivity|by repeat split]).
  assert (Hf : (height t < 2)%nat) by (simpl; lia).
  split; [exact Hrepr|]. split; [exact Hf|].
  exact (dfsPreOrder_dfsPostOrder s t 2%nat Hrepr Hf).
Defined.

(** ** Trees up to addresses *)

Lemma skeleton_tinsert a v t : skeleton (tinsert a v t) = binsert v (skeleton t).
Proof.
  induction t as [|b l IHl x r IHr]; simpl; [done|].
  destruct (v <? x); simpl; congruence.
Qed.

Lemma binsert_all_app xs ys t :
  binsert_all (xs ++ ys) t = binsert_all ys (binsert_all xs t).
Proof. apply foldl_app. Qed.

Lemma binsert_all_left ys x r :
  Forall (λ y, y < x) ys →
  ∀ l, binsert_all ys (BNode l x r) = BNode (binsert_all ys l) x r.
Proof.
  induction 1 as [|y ys Hy _ IH]; intros l; [done|].
  simpl. assert ((y <? x) = true) as -> by lia. apply IH.
Qed.

Lemma binsert_all_right ys l x :
  Forall (λ y, x ≤ y) ys →
  ∀ r, binsert_all ys (BNode l x r) = BNode l x (binsert_all ys r).
Proof.
  induction 1 as [|y ys Hy _ IH]; intros r; [done|].
  simpl. assert ((y <? x) = false) as -> by lia. apply IH.
Qed.

(** A tree with the ordering invariant grows back from its pre-order
    sequence. *)
Lemma binsert_all_preorder t :
  bst_le t → binsert_all (preorder t) BLeaf = skeleton t.
Proof.
  induction t as [|a l IHl v r IHr]; [done|].
  intros (Hfl & Hfr & Hbl & Hbr).
  change (binsert_all (preorder (Br a l v r)) BLeaf)
    with (binsert_all (preorder l ++ preorder r) (BNode BLeaf v BLeaf)).
  rewrite binsert_all_app, binsert_all_left, binsert_all_right.
  - simpl. by rewrite IHl, IHr.
  - by rewrite preorder_inorder.
  - by rewrite preorder_inorder.
Qed.

Lemma binsert_all_sorted vs :
  StronglySorted Z.lt vs → binsert_all vs BLeaf = chain vs.
Proof.
  induction 1 as [|v vs _ IH Hall]; [done|].
  change (binsert_all (v :: vs) BLeaf) with (binsert_all vs (BNode BLeaf v BLeaf)).
  rewrite binsert_all_right, IH; [done|].
  eapply Forall_impl; [exact Hall|]. simpl. intros; lia.
Qed.

Lemma insert_all_skeleton vs :
  ∀ s t fuel,
    repr s t → unshared t → NoDup vs → (∀ v, v ∈ vs → v ∉ inorder t) →
    (height t + length vs ≤ fuel)%nat →
    ∃ s' t',
      insert_all fuel vs s = Some s' ∧ repr s' t' ∧ unshared t' ∧
      skeleton t' = binsert_all vs (skeleton t).
Proof.
  induction vs as [|v vs IH]; intros s t fuel Hrepr Hu Hnd Hfresh Hf.
  { by exists s, t. }
  apply NoDup_cons in Hnd as [Hv Hnd]. simpl in Hf.
  destruct (insert_spec s t v fuel) as (s1 & Hi & _ & Hrepr1);
    auto; [apply Hfresh; by left|lia|].
  set (t1 := tinsert (fresh (dom (heap s))) v t) in *.
  assert (Ht1 : inorder t1 ≡ₚ v :: inorder t) by apply tinsert_inorder.
  destruct (IH s1 t1 fuel) as (s' & t' & Hi' & Hrepr' & Hu' & Hsk); auto.
  - apply tinsert_unshared; [done|by apply repr_fresh].
  - intros w Hw. rewrite Ht1. intros [->|Hin]%elem_of_cons; [done|].
    apply (Hfresh w); [by right|done].
  - pose proof (tinsert_height (fresh (dom (heap s))) v t) as Hh.
    fold t1 in Hh. lia.
  - exists s', t'. simpl. rewrite Hi. split_and!; auto.
    rewrite Hsk. unfold t1. by rewrite skeleton_tinsert.
Qed.

(** X10.  A tree with the strict ordering is rebuilt from the result of
    [dfsPreOrder]: inserting the values of that result, in that order, into
    an empty tree gives a tree of the same shape with the same value at
    every node. *)
Theorem rebuild_from_dfsPreOrder s t fuel :
  repr s t → bst t → (tsize t ≤ fuel)%nat →
  ∃ s' t',
    dfsPreOrder (S fuel) s = (Ret (map JNum (preorder t)), s) ∧
    insert_all fuel (preorder t) empty_tree = Some s' ∧
    repr s' t' ∧ skeleton t' = skeleton t.
Proof.
  intros Hrepr Hb Hf.
  destruct (insert_all_skeleton (preorder t) empty_tree Leaf fuel)
    as (s' & t' & Hrun & Hrepr' & _ & Hsk).
  - apply repr_empty.
  - apply NoDup_nil_2.
  - rewrite preorder_inorder. by apply bst_NoDup.
  - intros v _ Hin. by apply elem_of_nil in Hin.
  - rewrite preorder_inorder, inorder_length. simpl. lia.
  - exists s', t'. split_and!; auto.
    + pose proof (height_le_tsize t).
      destruct s as [h rt]. destruct Hrepr as [Hr Hs]. simpl in Hr, Hs. subst rt.
      unfold dfsPreOrder. erewrite bind_Ret by prim. cbn [root].
      rewrite traverse_pre_spec; [done|done|lia].
    + rewrite Hsk. by apply binsert_all_preorder, bst_bst_le.
Qed.

(** X10, at the tree with the single value 5. *)
Lemma rebuild_from_dfsPreOrder_witness :
  let s := mkStore {[1%positive := mkNode (JNum 5) None None]} (Some 1%positive) in
  let t := Br 1%positive Leaf 5 Leaf in
  repr s t ∧ bst t ∧ (tsize t ≤ 1)%nat ∧
  ∃ s' t',
    dfsPreOrder 2 s = (Ret (map JNum (preorder t)), s) ∧
    insert_all 1 (preorder t) empty_tree = Some s' ∧
    repr s' t' ∧ skeleton t' = skeleton t.
Proof.
  intros s t.
  assert (Hrepr : repr s t) by (split; [reflexivity|by repeat split]).
  assert (Hb : bst t) by (by repeat constructor).
  assert (Hf : (tsize t ≤ 1)%nat) by (simpl; lia).
  split; [exact Hrepr|]. split; [exact Hb|]. split; [exact Hf|].
  exact (rebuild_from_dfsPreOrder s t 1%nat Hrepr Hb Hf).
Defined.

Lemma chain_height vs t : skeleton t = chain vs → height t = length vs.
Proof.
  revert t. induction vs as [|v vs IH]; intros [|a l x r]; try done.
  simpl. intros [= Hl _ Hr]. destruct l; [|done]. simpl. by rewrite (IH r).
Qed.

Lemma chain_min_height vs t :
  skeleton t = chain vs → min_height t = (1 `min` length vs)%nat.
Proof.
  destruct vs as [|v vs]; destruct t as [|a l x r]; try done.
  simpl. intros [= Hl _ Hr]. by destruct l.
Qed.

(** X11.  The tree does not balance itself: inserting the values of a
    strictly increasing sequence gives the tree in which every left link is
    empty, whose height is the number of values, and [isBalanced] returns
    [false] on it as soon as there are three values. *)
Theorem insert_increasing vs fuel :
  StronglySorted Z.lt vs → (length vs ≤ fuel)%nat →
  ∃ s' t',
    insert_all fuel vs empty_tree = Some s' ∧
    repr s' t' ∧ skeleton t' = chain vs ∧ height t' = length vs ∧
    isBalanced (S fuel) s' = (Ret (bool_decide (length vs ≤ 2)%nat), s').
Proof.
  intros Hsorted Hf.
  destruct (insert_all_skeleton vs empty_tree Leaf fuel)
    as (s' & t' & Hrun & Hrepr' & _ & Hsk).
  - apply repr_empty.
  - apply NoDup_nil_2.
  - clear Hf. induction Hsorted as [|x xs Hs IH Hall]; constructor; [|done].
    intros Hin. rewrite Forall_forall in Hall. apply Hall in Hin. lia.
  - intros v _ Hin. by apply elem_of_nil in Hin.
  - simpl. lia.
  - change (skeleton Leaf) with BLeaf in Hsk.
    rewrite binsert_all_sorted in Hsk by done.
    pose proof (chain_height vs t' Hsk) as Hh.
    pose proof (chain_min_height vs t' Hsk) as Hm.
    exists s', t'. split_and!; auto.
    destruct s' as [h rt]. destruct Hrepr' as [Hr Hs]. simpl in Hr, Hs. subst rt.
    unfold isBalanced. erewrite bind_Ret by prim. cbn [root].
    rewrite isBalanced_from_spec by (done || lia).
    do 2 f_equal. rewrite Hh, Hm.
    case_bool_decide; [apply Z.leb_le|apply Z.leb_gt]; lia.
Qed.

(** X11, for the values 1, 2, 3. *)
Lemma insert_increasing_witness :
  StronglySorted Z.lt [1; 2; 3] ∧ (length [1; 2; 3] ≤ 3)%nat ∧
  ∃ s' t',
    insert_all 3 [1; 2; 3] empty_tree = Some s' ∧
    repr s' t' ∧ skeleton t' = chain [1; 2; 3] ∧ height t' = length [1; 2; 3] ∧
    isBalanced 4 s' = (Ret (bool_decide (length [1; 2; 3] ≤ 2)%nat), s').
Proof.
  assert (Hs : StronglySorted Z.lt [1; 2; 3]).
  { repeat constructor; lia. }
  assert (Hf : (length [1; 2; 3] ≤ 3)%nat) by (simpl; lia).
  split; [exact Hs|]. split; [exact Hf|].
  exact (insert_increasing [1; 2; 3] 3%nat Hs Hf).
Defined.

(** ** The breadth-first traversal *)

Lemma roots_app xs ys : roots (xs ++ ys) = roots xs ++ roots ys.
Proof. apply flat_map_app. Qed.

Lemma children_app xs ys : children (xs ++ ys) = children xs ++ children ys.
Proof. apply flat_map_app. Qed.

Lemma forest_order_nil n : forest_order n [] = [].
Proof. induction n; simpl; auto. Qed.

Lemma children_height n ts :
  Forall (λ t, height t ≤ S n)%nat ts → Forall (λ t, height t ≤ n)%nat (children ts).
Proof.
  induction 1 as [|t ts Ht _ IH]; [constructor|].
  destruct t as [|a l v r]; [done|]. simpl in *.
  repeat constructor; try lia. done.
Qed.

Lemma roots_flat ts :
  Forall (λ t, height t ≤ 0)%nat ts → roots ts = [] ∧ flat_map inorder ts = [].
Proof.
  induction 1 as [|t ts Ht _ [IH1 IH2]]; [done|].
  destruct t; simpl in *; [done|lia].
Qed.

(** Taking the trees at the front of the sequence to its end, one level
    down, moves their roots to the front of the result. *)
Lemma forest_order_shift n :
  ∀ xs ys, Forall (λ t, height t ≤ n)%nat xs →
  forest_order n (xs ++ ys) = roots xs ++ forest_order n (ys ++ children xs).
Proof.
  induction n as [|n IH]; intros xs ys Hxs.
  - simpl. by destruct (roots_flat xs Hxs) as [-> _].
  - simpl. rewrite !roots_app, !children_app.
    rewrite (IH (children xs) (children ys)) by by apply children_height.
    by rewrite <- !app_assoc.
Qed.

Lemma roots_nonleaves ts : roots (nonleaves ts) = roots ts.
Proof. induction ts as [|[|a l v r] ts IH]; simpl; [done|done|]. by rewrite IH. Qed.

Lemma children_nonleaves ts : children (nonleaves ts) = children ts.
Proof. induction ts as [|[|a l v r] ts IH]; simpl; [done|done|]. by rewrite IH. Qed.

Lemma forest_order_nonleaves n xs ys :
  forest_order n (xs ++ nonleaves ys) = forest_order n (xs ++ ys).
Proof.
  destruct n; [done|]. simpl.
  by rewrite !roots_app, !children_app, roots_nonleaves, children_nonleaves.
Qed.

Lemma forest_order_cons n a l v r ts :
  (height (Br a l v r) ≤ n)%nat →
  forest_order n (Br a l v r :: ts)
  = v :: forest_order n (ts ++ nonleaves [l; r]).
Proof.
  intros Hh. rewrite forest_order_nonleaves.
  change (Br a l v r :: ts) with ([Br a l v r] ++ ts).
  rewrite forest_order_shift by (by repeat constructor). done.
Qed.

Lemma bfs_loop_spec h rt n fuel :
  ∀ ts data,
    Forall (λ t, t ≠ Leaf ∧ shape h t ∧ (height t ≤ n)%nat) ts →
    (sum_list (map tsize ts) ≤ fuel)%nat →
    bfs_loop fuel (map ptr ts) data (mkStore h rt)
    = (Ret (data ++ map JNum (forest_order n ts)), mkStore h rt).
Proof.
  induction fuel as [|fuel IH]; intros ts data Hts Hf.
  - destruct ts as [|t ts].
    { simpl. by rewrite forest_order_nil, app_nil_r. }
    apply Forall_cons in Hts as [(Hnl & _ & _) _].
    destruct t; [done|simpl in Hf; lia].
  - destruct ts as [|t ts].
    { simpl. by rewrite forest_order_nil, app_nil_r. }
    apply Forall_cons in Hts as [(Hnl & Hs & Hh) Hts].
    destruct t as [|a l v r]; [done|].
    destruct Hs as (Ha & Hl & Hr).
    rewrite forest_order_cons by done.
    assert (Hq : (if truthy (ptr r)
                  then (if truthy (ptr l) then map ptr ts ++ [ptr l] else map ptr ts)
                       ++ [ptr r]
                  else (if truthy (ptr l) then map ptr ts ++ [ptr l] else map ptr ts))
                 = map ptr (ts ++ nonleaves [l; r])).
    { rewrite map_app. destruct l, r; simpl; by rewrite ?app_nil_r, <- ?app_assoc. }
    cbn [map bfs_loop ptr]. steps. rewrite Hq.
    rewrite IH.
    + by rewrite <- app_assoc.
    + apply Forall_app. split; [done|].
      apply Forall_forall. intros c Hc.
      assert (c ≠ Leaf ∧ (c = l ∨ c = r)) as (? & Hc').
      { clear -Hc. destruct l, r; simpl in Hc;
          repeat match goal with
                 | H : _ ∈ _ :: _ |- _ => apply elem_of_cons in H as [->|H]
                 end;
          try (by apply elem_of_nil in Hc); split; auto; done. }
      simpl in Hh. destruct Hc' as [->| ->]; (split_and!; [done|done|lia]).
    + rewrite map_app, sum_list_with_app. simpl in Hf.
      destruct l, r; simpl in *; lia.
Qed.

Lemma level_children d ts :
  flat_map (level (S d)) ts = flat_map (level d) (children ts).
Proof.
  induction ts as [|[|a l v r] ts IH]; [done|done|].
  change ((level d l ++ level d r) ++ flat_map (level (S d)) ts
          = level d l ++ level d r ++ [] ++ flat_map (level d) (children ts)).
  by rewrite IH, <- app_assoc.
Qed.

Lemma forest_order_levels n :
  ∀ ts, forest_order n ts
        = concat (map (λ d, flat_map (level d) ts) (seq 0 n)).
Proof.
  induction n as [|n IH]; intros ts; [done|].
  cbn [forest_order seq map concat].
  change (flat_map (level 0) ts) with (roots ts). rewrite IH. f_equal.
  rewrite <- seq_shift, map_map. f_equal.
  apply map_ext. intros d. by rewrite level_children.
Qed.

Lemma forest_order_level_order t : forest_order (height t) [t] = level_order t.
Proof.
  rewrite forest_order_levels. unfold level_order. f_equal.
  apply map_ext. intros d. simpl. by rewrite app_nil_r.
Qed.

Lemma inorder_children ts :
  flat_map inorder ts ≡ₚ roots ts ++ flat_map inorder (children ts).
Proof.
  induction ts as [|[|a l v r] ts IH]; [done|done|].
  change (flat_map inorder (Br a l v r :: ts))
    with ((inorder l ++ v :: inorder r) ++ flat_map inorder ts).
  change (roots (Br a l v r :: ts)) with (v :: roots ts).
  change (flat_map inorder (children (Br a l v r :: ts)))
    with (inorder l ++ inorder r ++ flat_map inorder (children ts)).
  rewrite IH, <- app_assoc. cbn [app]. rewrite <- Permutation_middle. f_equiv.
  rewrite !app_assoc. f_equiv. rewrite <- (app_assoc (roots ts)).
  apply Permutation_app_comm.
Qed.

Lemma forest_order_inorder n :
  ∀ ts, Forall (λ t, height t ≤ n)%nat ts → forest_order n ts ≡ₚ flat_map inorder ts.
Proof.
  induction n as [|n IH]; intros ts Hts.
  - by destruct (roots_flat ts Hts) as [_ ->].
  - simpl. rewrite IH by by apply children_height.
    by rewrite <- inorder_children.
Qed.

(** X12.  On a non-empty tree [bfs] returns the values level by level: the
    value at the root, then the values at depth one from left to right, and
    so on down to the last level; every value of the tree is in the result,
    as often as in the tree. *)
Theorem bfs_level_order s t fuel :
  repr s t → t ≠ Leaf → (tsize t ≤ fuel)%nat →
  bfs fuel s = (Ret (map JNum (level_order t)), s) ∧
  level_order t ≡ₚ inorder t.
Proof.
  intros Hrepr Hnl Hf. split.
  - destruct s as [h rt]. destruct Hrepr as [Hr Hs]. simpl in Hr, Hs. subst rt.
    unfold bfs. erewrite bind_Ret by prim.
    rewrite <- forest_order_level_order.
    apply (bfs_loop_spec h (ptr t) (height t) fuel [t] []).
    + by repeat constructor.
    + simpl. lia.
  - rewrite <- forest_order_level_order, forest_order_inorder.
    + simpl. by rewrite app_nil_r.
    + by repeat constructor.
Qed.

(** X12, at the tree with the single value 5. *)
Lemma bfs_level_order_witness :
  let s := mkStore {[1%positive := mkNode (JNum 5) None None]} (Some 1%positive) in
  let t := Br 1%positive Leaf 5 Leaf in
  repr s t ∧ t ≠ Leaf ∧ (tsize t ≤ 1)%nat ∧
  bfs 1 s = (Ret (map JNum (level_order t)), s) ∧
  level_order t ≡ₚ inorder t.
Proof.
  intros s t.
  assert (Hrepr : repr s t) by (split; [reflexivity|by repeat split]).
  assert (Hnl : t ≠ Leaf) by discriminate.
  assert (Hf : (tsize t ≤ 1)%nat) by (simpl; lia).
  split; [exact Hrepr|]. split; [exact Hnl|]. split; [exact Hf|].
  exact (bfs_level_order s t 1%nat Hrepr Hnl Hf).
Defined.

(** ** findSecondHighest *)

Lemma children_cases (l r : tree) :
  (l = Leaf ∧ r = Leaf) ∨ (l ≠ Leaf ∨ r ≠ Leaf).
Proof. destruct l, r; auto. Qed.

Lemma second_walk_right a l x b rl y rr :
  rl ≠ Leaf ∨ rr ≠ Leaf →
  second_walk (Br a l x (Br b rl y rr)) = second_walk (Br b rl y rr).
Proof. destruct rl, rr; intros [?|?]; done. Qed.

Lemma second_walk_left a l x :
  l ≠ Leaf → second_walk (Br a l x Leaf) = second_walk l.
Proof. by destruct l. Qed.

Lemma no_children_eq h rt b rl y rr :
  h !! b = Some (mkNode (JNum y) (ptr rl) (ptr rr)) →
  (let* crl := get_left (Some b) in
   if negb (truthy crl) then
     let* crr := get_right (Some b) in ret (negb (truthy crr))
   else ret false) (mkStore h rt)
  = (Ret (match rl, rr with Leaf, Leaf => true | _, _ => false end), mkStore h rt).
Proof.
  intros Hb. step. destruct rl; simpl; [|done]. step. by destruct rr.
Qed.

Lemma findSecondHighest_loop_spec h rt self F t :
  (∀ l, shape h l → (height l < F)%nat →
     self (ptr l) (mkStore h rt) = (Ret (JNum <$> second_walk l), mkStore h rt)) →
  shape h t → (height t ≤ F)%nat →
  ∀ fuel, (height t ≤ fuel)%nat →
  findSecondHighest_loop self fuel (ptr t) (mkStore h rt)
  = (Ret (JNum <$> second_walk t), mkStore h rt).
Proof.
  intros Hself. induction t as [|a l _ x r IHr]; intros Hs HF fuel Hf.
  { by destruct fuel. }
  destruct Hs as (Ha & Hl & Hr). destruct fuel as [|fuel]; [simpl in Hf; lia|].
  destruct r as [|b rl y rr].
  - destruct l as [|c ll z lr].
    + simpl. steps. by destruct fuel.
    + rewrite second_walk_left by done.
      assert (Hrun : self (ptr (Br c ll z lr)) (mkStore h rt)
                     = (Ret (JNum <$> second_walk (Br c ll z lr)), mkStore h rt)).
      { apply Hself; [done|]. simpl in *. lia. }
      remember (second_walk (Br c ll z lr)) as res.
      simpl. steps. exact Hrun.
  - destruct (children_cases rl rr) as [[-> ->]|Hn].
    + destruct Hr as (Hb & _). simpl. steps. rewrite andb_false_r.
      erewrite bind_Ret by (apply (no_children_eq h rt b Leaf y Leaf); exact Hb).
      cbv beta iota. by steps.
    + rewrite second_walk_right by done.
      assert (Hrun : findSecondHighest_loop self fuel (ptr (Br b rl y rr))
                       (mkStore h rt)
                     = (Ret (JNum <$> second_walk (Br b rl y rr)), mkStore h rt)).
      { apply IHr; [done| |]; simpl in *; lia. }
      remember (second_walk (Br b rl y rr)) as res.
      destruct Hr as (Hb & _). simpl. steps. rewrite andb_false_r.
      erewrite bind_Ret by (apply (no_children_eq h rt b rl y rr); exact Hb).
      cbv beta. destruct rl as [|d rll w rlr]; [|exact Hrun].
      destruct rr as [|d rrl w rrr]; [by destruct Hn|exact Hrun].
Qed.

Lemma findSecondHighest_from_spec h a0 l0 x0 r0 :
  shape h (Br a0 l0 x0 r0) → l0 ≠ Leaf ∨ r0 ≠ Leaf →
  ∀ fuel t, shape h t → (height t < fuel)%nat →
  findSecondHighest_from fuel (ptr t) (mkStore h (Some a0))
  = (Ret (JNum <$> second_walk t), mkStore h (Some a0)).
Proof.
  intros (Ha0 & _ & _) Hnl. induction fuel as [|fuel IH]; intros t Hs Hf; [lia|].
  cbn [findSecondHighest_from]. erewrite bind_Ret by prim.
  assert (Hsingle :
    (if negb (truthy (Some a0)) then ret true
     else
       let* rl := get_left (Some a0) in
       if negb (truthy rl) then
         let* rr := get_right (Some a0) in ret (negb (truthy rr))
       else ret false) (mkStore h (Some a0)) = (Ret false, mkStore h (Some a0))).
  { simpl. rewrite (no_children_eq h (Some a0) a0 l0 x0 r0 Ha0).
    destruct l0; [|done]. destruct r0; [by destruct Hnl|done]. }
  erewrite bind_Ret by exact Hsingle. cbv iota.
  apply (findSecondHighest_loop_spec h (Some a0) _ fuel); auto; lia.
Qed.

Lemma findSecondHighest_spec s t fuel :
  repr s t → (height t < fuel)%nat →
  findSecondHighest fuel s = (Ret (JNum <$> second_walk t), s).
Proof.
  destruct s as [h rt]. intros [Hrt Hs] Hf. simpl in Hrt, Hs. subst rt.
  unfold findSecondHighest. erewrite bind_Ret by prim. cbn [root].
  destruct t as [|a l x r].
  { destruct fuel; [lia|]. simpl. by steps. }
  destruct (children_cases l r) as [[-> ->]|Hn].
  - destruct Hs as (Ha & _). destruct fuel; [lia|]. simpl. step.
    by erewrite bind_Ret by (apply (no_children_eq h _ a Leaf x Leaf); exact Ha).
  - by apply (findSecondHighest_from_spec h a l x r).
Qed.

Lemma penultimate_app xs ys :
  (2 ≤ length ys)%nat → penultimate (xs ++ ys) = penultimate ys.
Proof.
  intros Hl. unfold penultimate. rewrite rev_app_distr.
  destruct (rev ys) as [|y1 [|y2 zs]] eqn:E; [| |done].
  - apply (f_equal length) in E. rewrite length_rev in E. simpl in E. lia.
  - apply (f_equal length) in E. rewrite length_rev in E. simpl in E. lia.
Qed.

Lemma penultimate_snoc xs x : penultimate (xs ++ [x]) = last xs.
Proof.
  unfold penultimate. rewrite rev_app_distr. simpl.
  destruct xs as [|y ys _] using rev_ind; [done|].
  by rewrite rev_app_distr, last_snoc.
Qed.

Lemma sorted_last xs m :
  StronglySorted Z.lt xs → last xs = Some m → ∀ y, y ∈ xs → y ≤ m.
Proof.
  induction 1 as [|x xs Hs IH Hall]; [done|].
  intros Hlast y Hy. destruct xs as [|x' xs'].
  - injection Hlast as <-. apply elem_of_cons in Hy as [->|Hy]; [lia|].
    by apply elem_of_nil in Hy.
  - change (last (x :: x' :: xs')) with (last (x' :: xs')) in Hlast.
    apply elem_of_cons in Hy as [->|Hy]; [|by apply IH].
    assert (m ∈ x' :: xs') as Hm by (by apply last_Some_elem_of).
    rewrite Forall_forall in Hall. apply Hall in Hm. lia.
Qed.

(** The walk gives the last but one value when the node of the largest
    value has no children. *)
Lemma second_walk_correct t :
  (2 ≤ tsize t)%nat → rightmost_is_leaf t = true →
  second_walk t = penultimate (inorder t).
Proof.
  induction t as [|a l _ x r IHr]; [simpl; lia|]. intros Hsize Hleaf.
  destruct r as [|b rl y rr].
  - destruct l; [simpl in Hsize; lia|done].
  - destruct (children_cases rl rr) as [[-> ->]|Hn].
    + cbn [second_walk inorder app].
      by rewrite (penultimate_app (inorder l) [x; y]) by (simpl; lia).
    + rewrite second_walk_right by done.
      set (r := Br b rl y rr) in *.
      assert (Hr : (2 ≤ tsize r)%nat).
      { unfold r. destruct rl, rr; simpl; try lia. by destruct Hn. }
      rewrite IHr by done.
      cbn [inorder]. change (x :: inorder r) with ([x] ++ inorder r).
      rewrite app_assoc, penultimate_app; [done|].
      by rewrite inorder_length.
Qed.

(** The value that the walk gives is never the largest one. *)
Lemma second_walk_below t x :
  bst t → second_walk t = Some x → ∃ y, y ∈ inorder t ∧ x < y.
Proof.
  induction t as [|a l IHl v r IHr]; [done|].
  intros (Hfl & Hfr & Hbl & Hbr). destruct r as [|b rl y rr].
  - destruct l as [|c ll z lr]; [done|].
    rewrite second_walk_left by done. intros Hw.
    destruct (IHl Hbl Hw) as (y & Hy & Hxy). exists y. split; [|done].
    cbn [inorder]. apply elem_of_app. by left.
  - destruct (children_cases rl rr) as [[-> ->]|Hn].
    + intros [= <-]. exists y. apply Forall_cons in Hfr as [Hvy _].
      split; [|done]. cbn [inorder]. apply elem_of_app. right.
      apply elem_of_cons. right. by left.
    + rewrite second_walk_right by done. intros Hw.
      destruct (IHr Hbr Hw) as (z & Hz & Hxz). exists z. split; [|done].
      cbn [inorder]. apply elem_of_app. right. apply elem_of_cons. by right.
Qed.

(** It is not the last but one value when the node of the largest value has
    a left child. *)
Lemma second_walk_wrong t :
  bst t → (2 ≤ tsize t)%nat → rightmost_is_leaf t = false →
  second_walk t ≠ penultimate (inorder t).
Proof.
  induction t as [|a l _ x r IHr]; [simpl; lia|].
  intros (Hfl & Hfr & Hbl & Hbr) Hsize Hleaf. destruct r as [|b rl y rr].
  - destruct l as [|c ll z lr]; [done|].
    rewrite second_walk_left by done.
    set (l := Br c ll z lr) in *.
    cbn [inorder]. rewrite penultimate_snoc. intros Heq.
    destruct (last (inorder l)) as [m|] eqn:Hlast.
    + destruct (second_walk_below l m Hbl Heq) as (w & Hw & Hmw).
      pose proof (sorted_last _ m (bst_sorted l Hbl) Hlast w Hw). lia.
    + apply last_None in Hlast. apply (f_equal length) in Hlast.
      rewrite inorder_length in Hlast. simpl in Hlast. lia.
  - destruct (children_cases rl rr) as [[-> ->]|Hn]; [done|].
    rewrite second_walk_right by done.
    set (r := Br b rl y rr) in *.
    assert (Hr : (2 ≤ tsize r)%nat).
    { unfold r. destruct rl, rr; simpl; try lia. by destruct Hn. }
    cbn [inorder]. change (x :: inorder r) with ([x] ++ inorder r).
    rewrite app_assoc, penultimate_app by (by rewrite inorder_length).
    by apply IHr.
Qed.

(** X13.  On a tree with the strict ordering and at least two values,
    [findSecondHighest] returns the second largest value (the last but one
    of the increasing in-order sequence) exactly when the node of the
    largest value has no children; when that node has a left child the
    method returns something else. *)
Theorem findSecondHighest_correct_iff s t fuel :
  repr s t → bst t → (2 ≤ tsize t)%nat → (height t < fuel)%nat →
  StronglySorted Z.lt (inorder t) ∧
  ∃ r,
    findSecondHighest fuel s = (Ret r, s) ∧
    (r = JNum <$> penultimate (inorder t) ↔ rightmost_is_leaf t = true).
Proof.
  intros Hrepr Hb Hsize Hf. split; [by apply bst_sorted|].
  exists (JNum <$> second_walk t). split; [by apply findSecondHighest_spec|].
  split.
  - intros Heq. destruct (rightmost_is_leaf t) eqn:Hleaf; [done|].
    destruct (second_walk_wrong t Hb Hsize Hleaf).
    destruct (second_walk t), (penultimate (inorder t)); simpl in Heq; congruence.
  - intros Hleaf. by rewrite second_walk_correct.
Qed.

(** X13, at the tree with 5 at the root and 3 to its left. *)
Lemma findSecondHighest_correct_iff_witness :
  let h : gmap loc Node :=
    {[1%positive := mkNode (JNum 5) (Some 2%positive) None;
      2%positive := mkNode (JNum 3) None None]} in
  let s := mkStore h (Some 1%positive) in
  let t := Br 1%positive (Br 2%positive Leaf 3 Leaf) 5 Leaf in
  repr s t ∧ bst t ∧ (2 ≤ tsize t)%nat ∧ (height t < 3)%nat ∧
  StronglySorted Z.lt (inorder t) ∧
  ∃ r,
    findSecondHighest 3 s = (Ret r, s) ∧
    (r = JNum <$> penultimate (inorder t) ↔ rightmost_is_leaf t = true).
Proof.
  intros h s t.
  assert (Hrepr : repr s t) by (split; [reflexivity|by repeat split]).
  assert (Hb : bst t) by (simpl; repeat constructor; lia).
  assert (Hsize : (2 ≤ tsize t)%nat) by (simpl; lia).
  assert (Hf : (height t < 3)%nat) by (simpl; lia).
  split; [exact Hrepr|]. split; [exact Hb|]. split; [exact Hsize|].
  split; [exact Hf|].
  exact (findSecondHighest_correct_iff s t 3%nat Hrepr Hb Hsize Hf).
Defined.

(** X14.  [findSecondHighest] returns [undefined] on the empty tree and on
    a tree with a single node. *)
Theorem findSecondHighest_small s t fuel :
  repr s t → (tsize t < 2)%nat → (0 < fuel)%nat →
  findSecondHighest fuel s = (Ret None, s).
Proof.
  destruct s as [h rt]. intros [Hrt Hs] Hsize Hf. simpl in Hrt, Hs. subst rt.
  unfold findSecondHighest. erewrite bind_Ret by prim. cbn [root].
  destruct fuel; [lia|]. destruct t as [|a l x r].
  - simpl. by steps.
  - destruct l, r; simpl in Hsize; try lia.
    destruct Hs as (Ha & _). simpl. step.
    by erewrite bind_Ret by (apply (no_children_eq h _ a Leaf x Leaf); exact Ha).
Qed.

(** X14, at the empty tree. *)
Lemma findSecondHighest_small_witness :
  repr empty_tree Leaf ∧ (tsize Leaf < 2)%nat ∧ (0 < 1)%nat ∧
  findSecondHighest 1 empty_tree = (Ret None, empty_tree).
Proof.
  assert (Hrepr : repr empty_tree Leaf) by (split; reflexivity).
  assert (Hsize : (tsize Leaf < 2)%nat) by (simpl; lia).
  assert (Hf : (0 < 1)%nat) by lia.
  split; [exact Hrepr|]. split; [exact Hsize|]. split; [exact Hf|].
  exact (findSecondHighest_small empty_tree Leaf 1%nat Hrepr Hsize Hf).
Defined.

(** ** What the balance check gives *)

Lemma min_height_tsize t : (2 ^ min_height t ≤ tsize t + 1)%nat.
Proof.
  induction t as [|a l IHl v r IHr]; simpl; [lia|].
  pose proof (Nat.pow_le_mono_r 2 (min_height l `min` min_height r) (min_height l)).
  pose proof (Nat.pow_le_mono_r 2 (min_height l `min` min_height r) (min_height r)).
  lia.
Qed.

(** X15.  A tree on which [isBalanced] returns [true] is not deeper than
    the logarithm of its number of nodes allows: with height [k] it has at
    least [2 ^ (k - 1) - 1] nodes. *)
Theorem isBalanced_logarithmic s t fuel :
  repr s t → (height t < fuel)%nat → isBalanced fuel s = (Ret true, s) →
  (2 ^ height t ≤ 2 * (tsize t + 1))%nat.
Proof.
  destruct s as [h rt]. intros [Hrt Hs] Hf Hrun. simpl in Hrt, Hs. subst rt.
  unfold isBalanced in Hrun.
  rewrite (bind_Ret _ _ _ _ _ (get_root_eq _ _)) in Hrun. cbv beta in Hrun.
  rewrite isBalanced_from_spec in Hrun by done.
  injection Hrun as Hb. apply Z.leb_le in Hb.
  pose proof (min_height_tsize t).
  pose proof (Nat.pow_le_mono_r 2 (height t) (S (min_height t))).
  simpl in *. lia.
Qed.

(** X15, at the tree with the single value 5. *)
Lemma isBalanced_logarithmic_witness :
  let s := mkStore {[1%positive := mkNode (JNum 5) None None]} (Some 1%positive) in
  let t := Br 1%positive Leaf 5 Leaf in
  repr s t ∧ (height t < 2)%nat ∧ isBalanced 2 s = (Ret true, s) ∧
  (2 ^ height t ≤ 2 * (tsize t + 1))%nat.
Proof.
  intros s t.
  assert (Hrepr : repr s t) by (split; [reflexivity|by repeat split]).
  assert (Hf : (height t < 2)%nat) by (simpl; lia).
  assert (Hrun : isBalanced 2 s = (Ret true, s)) by (vm_compute; reflexivity).
  split; [exact Hrepr|]. split; [exact Hf|]. split; [exact Hrun|].
  exact (isBalanced_logarithmic s t 2%nat Hrepr Hf Hrun).
Defined.
